(** * file-cache: a shallow embedding of the cache coordinator and its file backend

    The development follows the sources:
    - [BaseCache.js]: the coordinator ([BaseCache]) with its four module-level
      in-flight maps [getting], [setting], [getOrSetting], [getOrSettingStale];
    - the file backend ([FileCacheBackend]): [compressMaybe], [decompressMaybe],
      [hash], [keyToPath], [set], [touch];
    - the older backend object ([FileCache.backend]) that ships next to the
      README, with its own [keyToPath].

    JavaScript strings are modelled by [string] (one [ascii] per code unit, so
    keys range over Latin-1), buffers by [list byte], promises by identifiers in
    a promise table, and [async] functions by terms of a small free monad
    ([Task]) run by an event loop with a microtask and a macrotask queue. *)

From stdpp Require Import gmap strings list pretty.
From Stdlib Require Import ZArith Ascii String Lia.
From Stdlib.Strings Require Import Byte.

Open Scope string_scope.
Open Scope Z_scope.

#[local] Set Warnings "-register-all".

(** ** JSON data and its serialisation *)

Inductive json : Type :=
| JNull
| JBool (b : bool)
| JNum (n : Z)
| JStr (s : string)
| JArr (xs : list json)
| JObj (fields : list (string * json)).

Module Json.

Definition dquote : ascii := "034"%char.
Definition backslash : ascii := "092"%char.

Definition hex_digit (n : nat) : ascii :=
  match n with
  | 0%nat => "0" | 1%nat => "1" | 2%nat => "2" | 3%nat => "3"
  | 4%nat => "4" | 5%nat => "5" | 6%nat => "6" | 7%nat => "7"
  | 8%nat => "8" | 9%nat => "9" | 10%nat => "a" | 11%nat => "b"
  | 12%nat => "c" | 13%nat => "d" | 14%nat => "e" | _ => "f"
  end%char.

(** One code unit inside a JSON string literal, as [JSON.stringify] writes it. *)
Definition escape_char (a : ascii) : string :=
  let n := nat_of_ascii a in
  if Ascii.eqb a dquote then String backslash (String dquote "")
  else if Ascii.eqb a backslash then String backslash (String backslash "")
  else if Nat.eqb n 8 then String backslash "b"
  else if Nat.eqb n 9 then String backslash "t"
  else if Nat.eqb n 10 then String backslash "n"
  else if Nat.eqb n 12 then String backslash "f"
  else if Nat.eqb n 13 then String backslash "r"
  else if Nat.ltb n 32 then
    String backslash
      (String "u" (String "0" (String "0"
        (String (hex_digit (n / 16)) (String (hex_digit (n mod 16)) "")))))
  else String a "".

Fixpoint escape (s : string) : string :=
  match s with
  | EmptyString => ""
  | String a s' => escape_char a ++ escape s'
  end.

Definition quote (s : string) : string :=
  String dquote (escape s ++ String dquote "").

Fixpoint stringify (j : json) : string :=
  match j with
  | JNull => "null"
  | JBool true => "true"
  | JBool false => "false"
  | JNum n => pretty n
  | JStr s => quote s
  | JArr xs => "[" ++ String.concat "," (map stringify xs) ++ "]"
  | JObj fields =>
      "{" ++ String.concat ","
               (map (fun kv => quote (fst kv) ++ ":" ++ stringify (snd kv)) fields)
          ++ "}"
  end.

(** An object literal whose properties may be [undefined]: those are left out
    by [JSON.stringify], and are missing again after [JSON.parse]. *)
Definition object_of_props (props : list (string * option json)) : json :=
  JObj (omap (fun kv => match snd kv with
                        | Some j => Some (fst kv, j)
                        | None => None
                        end) props).

(** [obj[name]] on parsed JSON; [None] is [undefined]. *)
Fixpoint assoc (name : string) (fields : list (string * json)) : option json :=
  match fields with
  | [] => None
  | (k, j) :: rest => if String.eqb k name then Some j else assoc name rest
  end.

End Json.

(** ** Buffers *)

Module Buffer.

(** [Buffer.from(str)]: UTF-8 bytes of a string of code units below 256. *)
Definition utf8_char (a : ascii) : list byte :=
  let n := N_of_ascii a in
  if (n <? 128)%N then [byte_of_ascii a]
  else
    [byte_of_ascii (ascii_of_N (N.lor 192 (N.shiftr n 6)));
     byte_of_ascii (ascii_of_N (N.lor 128 (N.land n 63)))].

Fixpoint from (s : string) : list byte :=
  match s with
  | EmptyString => []
  | String a s' => utf8_char a ++ from s'
  end.

(** [buffer[i]], a number or [undefined]. *)
Definition at_ (b : list byte) (i : nat) : option byte := list_lookup i b.

End Buffer.

(** ** The zstd boundary

    [compress] and [decompress] come from [@mongodb-js/zstd]; a call to them is
    kept as a request, so that "was the codec called" is a property of the
    result. *)

Inductive codec : Type :=
| Raw (buffer : list byte)
| ZstdCompress (buffer : list byte) (level : Z)
| ZstdDecompress (buffer : list byte).

Definition is_compress (c : codec) : bool :=
  match c with ZstdCompress _ _ => true | _ => false end.

Definition is_decompress (c : codec) : bool :=
  match c with ZstdDecompress _ => true | _ => false end.

Definition byte_is (o : option byte) (b : byte) : bool :=
  match o with Some x => Byte.eqb x b | None => false end.

(** [compressMaybe(buffer)] *)
Definition compressMaybe (buffer : list byte) : codec :=
  if (List.length buffer <? 256)%nat then Raw buffer
  else ZstdCompress buffer 3.

(** [decompressMaybe(buffer)] *)
Definition decompressMaybe (buffer : list byte) : codec :=
  if (List.length buffer <? 64)%nat then Raw buffer
  else if byte_is (Buffer.at_ buffer 3) xfd && byte_is (Buffer.at_ buffer 2) x2f
          && byte_is (Buffer.at_ buffer 1) xb5 && byte_is (Buffer.at_ buffer 0) x28
       then ZstdDecompress buffer
       else Raw buffer.

(** The four bytes the zstd frame starts with. *)
Definition zstd_magic : list byte := [x28; xb5; x2f; xfd].

(** The object [{t, c, v: value}] that [FileCacheBackend.set] serialises. *)
Definition envelope (t c value : option json) : json :=
  Json.object_of_props [("t", t); ("c", c); ("v", value)].

(** The buffer [FileCacheBackend.set] hands to [compressMaybe]:
    [Buffer.from(JSON.stringify({t, c, v: value}))]. *)
Definition envelope_buffer (t c value : option json) : list byte :=
  Buffer.from (Json.stringify (envelope t c value)).

(** What [FileCacheBackend.set] writes to the temporary file. *)
Definition set_payload (t c value : option json) : codec :=
  compressMaybe (envelope_buffer t c value).

(** ** Key to path

    Both encoders use Node's [crypto] SHA-1 with the [base64url] digest; the
    digest function is a parameter of the section. *)

Section KeyCodec.

Variable sha1_base64url : string -> string.

Definition slash : ascii := "/"%char.

(** [str.split(sep)] for a non-empty separator. [skip] counts the code units
    of a matched separator that are still to be passed over, [cur] is the
    current part, reversed. *)
Fixpoint split_aux (sep : string) (skip : nat) (cur : list ascii) (s : string)
  : list string :=
  match s with
  | EmptyString => [string_of_list_ascii (rev cur)]
  | String a s' =>
      match skip with
      | S n => split_aux sep n cur s'
      | O =>
          if String.prefix sep s
          then string_of_list_ascii (rev cur)
                 :: split_aux sep (String.length sep - 1) [] s'
          else split_aux sep 0 (a :: cur) s'
      end
  end.

Definition split (sep s : string) : list string := split_aux sep 0 [] s.

(** [str.replace(/[_-]/g, '')] *)
Fixpoint strip_dash_underscore (s : string) : string :=
  match s with
  | EmptyString => ""
  | String a s' =>
      if Ascii.eqb a "_" || Ascii.eqb a "-" then strip_dash_underscore s'
      else String a (strip_dash_underscore s')
  end.

(** [hash(str)] of the file backend: ten characters cut out of the digest. *)
Definition hash (str : string) : string :=
  String.substring 5 10 (strip_dash_underscore (sha1_base64url str)).

(** [parts[parts.length - 1] = f(parts[parts.length - 1])] *)
Fixpoint map_last (f : string -> string) (parts : list string) : list string :=
  match parts with
  | [] => []
  | [p] => [f p]
  | p :: rest => p :: map_last f rest
  end.

(** [FileCacheBackend.KEY_SEPARATOR], a vertical tab followed by a slash. *)
Definition KEY_SEPARATOR : string := String "011"%char (String slash "").

(** [FileCacheBackend.keyToPath(key)] *)
Definition keyToPath (CACHE_DIR key : string) : string :=
  let parts := split KEY_SEPARATOR key in
  CACHE_DIR ++ "/" ++ String.concat "/" (map_last hash parts).

(** [FileCacheBackend.keyToFile(key)] *)
Definition keyToFile (CACHE_DIR key : string) : string :=
  keyToPath CACHE_DIR key ++ ".fc".

(** *** The older encoder, [FileCache.backend.keyToPath] *)

(** [\s] on code units below 256. *)
Definition is_space (a : ascii) : bool :=
  let n := nat_of_ascii a in
  Nat.eqb n 9 || Nat.eqb n 10 || Nat.eqb n 11 || Nat.eqb n 12 || Nat.eqb n 13
  || Nat.eqb n 32 || Nat.eqb n 160.

(** The character class of the first [replace]. *)
Definition unsafe_chars : list ascii :=
  ["`"; "!"; "@"; "#"; "$"; "%"; "^"; "&"; "*"; "("; ")"; "="; "+"; "["; "]";
   "{"; "}"; "092"; "|"; ":"; ";"; "'"; "034"; ","; "<"; ">"; "/"; "?"]%char.

Definition is_unsafe (a : ascii) : bool :=
  is_space a || existsb (Ascii.eqb a) unsafe_chars.

(** [key.replace(/[...]+/g, '/')]: every maximal run of unsafe code units
    becomes one slash. *)
Fixpoint replace_unsafe (in_run : bool) (s : string) : string :=
  match s with
  | EmptyString => ""
  | String a s' =>
      if is_unsafe a
      then (if in_run then replace_unsafe true s'
            else String slash (replace_unsafe true s'))
      else String a (replace_unsafe false s')
  end.

(** [key.replace(/\/$/, '')] *)
Fixpoint strip_final_slash (s : string) : string :=
  match s with
  | EmptyString => ""
  | String a EmptyString => if Ascii.eqb a slash then "" else s
  | String a s' => String a (strip_final_slash s')
  end.

(** [key.match(/\/[^/]*$/)]: what precedes the match, and the match. *)
Fixpoint match_last_part (s : string) : option (string * string) :=
  match s with
  | EmptyString => None
  | String a s' =>
      match match_last_part s' with
      | Some (before, lastPart) => Some (String a before, lastPart)
      | None => if Ascii.eqb a slash then Some ("", s) else None
      end
  end.

Definition legacy_encode (key : string) : string :=
  if (2048 <? String.length key)%nat then sha1_base64url key
  else
    let key1 := strip_final_slash (replace_unsafe false key) in
    if (200 <? String.length key1)%nat then
      match match_last_part key1 with
      | Some (before, lastPart) =>
          if (200 <? String.length lastPart)%nat
          then before ++ "/" ++ sha1_base64url lastPart
          else key1
      | None => key1
      end
    else key1.

(** [FileCache.backend.keyToPath(key)] *)
Definition legacy_keyToPath (cacheDir key : string) : string :=
  cacheDir ++ "/" ++ legacy_encode key.

End KeyCodec.

Open Scope list_scope.

(** ** JavaScript values *)

Inductive Val : Type :=
| VUndef
| VJson (j : json)
| VErr (code : string)
| VProm (p : nat * nat).

Abbreviation VNum n := (VJson (JNum n)).
Abbreviation VStr s := (VJson (JStr s)).
Abbreviation VTrue := (VJson (JBool true)).
Abbreviation VFalse := (VJson (JBool false)).

(** The outcome of a synchronous call into user code. *)
Inductive Result : Type :=
| Ok (v : Val)
| Raise (e : Val).

Definition of_json (o : option json) : Val :=
  match o with Some j => VJson j | None => VUndef end.

(** What survives [JSON.parse(JSON.stringify(v))] as a property value: errors
    and promises have no enumerable properties. *)
Definition to_json (v : Val) : option json :=
  match v with
  | VUndef => None
  | VJson j => Some j
  | VErr _ => Some (JObj [])
  | VProm _ => Some (JObj [])
  end.

Definition is_undef (v : Val) : bool :=
  match v with VUndef => true | _ => false end.

(** [v === false] *)
Definition is_false (v : Val) : bool :=
  match v with VFalse => true | _ => false end.

(** JavaScript truthiness. *)
Definition truthy (v : Val) : bool :=
  match v with
  | VUndef => false
  | VJson JNull => false
  | VJson (JBool b) => b
  | VJson (JNum n) => negb (n =? 0)
  | VJson (JStr s) => negb (String.eqb s "")
  | _ => true
  end.

(** [value && value.then] *)
Definition is_thenable (v : Val) : bool :=
  match v with VProm _ => true | _ => false end.

(** [v[name]]; reading a property of [undefined] or [null] throws. *)
Definition get_prop (name : string) (v : Val) : Result :=
  match v with
  | VUndef => Raise (VErr "TypeError")
  | VJson JNull => Raise (VErr "TypeError")
  | VJson (JObj fields) => Ok (of_json (Json.assoc name fields))
  | _ => Ok VUndef
  end.

(** [v[name]] where the code has already checked that [v] is truthy. *)
Definition prop (name : string) (v : Val) : Val :=
  match get_prop name v with Ok x => x | Raise _ => VUndef end.

Definition to_num (v : Val) : option Z :=
  match v with VNum n => Some n | _ => None end.

(** [a < b - c] on numbers; a comparison with [NaN] is false. *)
Definition lt_minus (a b c : Val) : bool :=
  match to_num a, to_num b, to_num c with
  | Some x, Some y, Some z => x <? y - z
  | _, _, _ => false
  end.

(** [a ?? b] *)
Definition nullish_or (a b : Val) : Val :=
  match a with
  | VUndef => b
  | VJson JNull => b
  | _ => a
  end.

(** ** Asynchronous code as a free monad

    An [async] function body is a [Task]: it runs until it returns, throws or
    reaches an [await]. Every operation carries its continuation.

    A promise is named by a pair: the call of the embedding program in whose
    course it was created, and its rank among the promises created there. *)

Inductive MapName : Type := getting | setting | getOrSetting | getOrSettingStale.

(** The [ctx] objects that [set] and [getStale] write into. *)
Record Ctx : Type := mkCtx {
  ctx_staleTTL : Val;
  ctx_isStale : Val;
  ctx_result : Val;
}.

Definition empty_ctx : Ctx := mkCtx VUndef VUndef VUndef.

Inductive Task : Type :=
| Return (v : Val)
| Throw (e : Val)
(** [await v]; [h] receives the rejection *)
| Await (v : Val) (k : Val -> Task) (h : Val -> Task)
(** calling an [async] function: its body starts at once, the caller gets its promise *)
| Spawn (body : Task) (k : nat * nat -> Task)
(** [p.then(onFul, onRej)] *)
| Then_ (p : nat * nat) (onFul onRej : Val -> Task) (k : nat * nat -> Task)
| MapGet (m : MapName) (key : string) (k : Val -> Task)
| MapSet (m : MapName) (key : string) (v : Val) (k : Task)
| MapDelete (m : MapName) (key : string) (k : Task)
| LoggerError (args : list Val) (k : Task)
| DateNow (k : Val -> Task)
(** [a < Date.now() - b], as the clock answers it *)
| Older (a b : Val) (k : bool -> Task)
| IsBypassed (k : Val -> Task)
(** the external [timestring(ttl, 'ms')], which throws on a malformed string *)
| Timestring (s : string) (k : Val -> Task) (h : Val -> Task)
(** a producer function is entered *)
| Called (fn : string) (arg : string) (k : Task)
| NewCtx (c : Ctx) (k : nat -> Task)
| GetCtx (o : nat) (k : Ctx -> Task)
| SetCtx (o : nat) (f : Ctx -> Ctx) (k : Task)
| FsReadFile (file : string) (k : nat * nat -> Task)
| FsWriteFile (file : string) (content : json) (k : nat * nat -> Task)
| FsUnlink (file : string) (k : nat * nat -> Task)
| SetTimeout (body : Task) (k : Task).

(** [await v] outside of any [try]. *)
Definition await (v : Val) (k : Val -> Task) : Task := Await v k Throw.

(** [await f(...)] for an [async] function [f]. *)
Definition await_call (body : Task) (k : Val -> Task) : Task :=
  Spawn body (fun p => Await (VProm p) k Throw).

(** [try { ... await f(...) ... } catch (e) { handler e }]: a rejection of the
    awaited promise enters the [catch] block. *)
Definition try_await_call (body : Task) (k : Val -> Task) (handler : Val -> Task)
  : Task :=
  Spawn body (fun p => Await (VProm p) k handler).

(** [return f(...)] for an [async] function [f]: the caller's promise follows
    the callee's. *)
Definition return_call (body : Task) : Task :=
  Spawn body (fun p => Return (VProm p)).

(** ** The event loop *)

Record Reaction : Type := mkReaction {
  onFul : Val -> Task;
  onRej : Val -> Task;
  target : nat * nat;
}.

Inductive PState : Type :=
| Pending (reactions : list Reaction)
| Fulfilled (v : Val)
| Rejected (e : Val).

Inductive Macro : Type :=
| IoRead (file : string) (p : nat * nat)
| IoWrite (file : string) (content : json) (p : nat * nat)
| IoUnlink (file : string) (p : nat * nat)
| Timer (origin : nat) (body : Task).

(** What surrounds a run: the clock (the time it shows, and its answer to the
    n-th question "is [a < Date.now() - b]?"), the faults of the file system,
    the external TTL parser and the two bypass flags. *)
Record World : Type := mkWorld {
  now : Z;
  older : nat -> Val -> Val -> bool;
  read_fault : string -> option Val;
  write_fault : string -> option Val;
  timestring : string -> option Z;
  static_bypass : Val;
  inst_bypass : Val;
}.

(** The loop itself: promises, [ctx] objects, the two queues, what was logged,
    which producers were called and what the clock was asked. *)
Record Core : Type := mkCore {
  world : World;
  promises : list (list PState);
  heap : list Ctx;
  micro : list (Task * (nat * nat));
  macro : list Macro;
  log : list (list Val);
  calls : list (string * string);
  asked : list (Val * Val);
}.

Definition set_promises (f : list (list PState) -> list (list PState)) (c : Core)
  : Core :=
  mkCore (world c) (f (promises c)) (heap c) (micro c) (macro c) (log c) (calls c)
         (asked c).

Definition set_heap (f : list Ctx -> list Ctx) (c : Core) : Core :=
  mkCore (world c) (promises c) (f (heap c)) (micro c) (macro c) (log c) (calls c)
         (asked c).

Definition set_micro
  (f : list (Task * (nat * nat)) -> list (Task * (nat * nat))) (c : Core) : Core :=
  mkCore (world c) (promises c) (heap c) (f (micro c)) (macro c) (log c) (calls c)
         (asked c).

Definition set_macro (f : list Macro -> list Macro) (c : Core) : Core :=
  mkCore (world c) (promises c) (heap c) (micro c) (f (macro c)) (log c) (calls c)
         (asked c).

Definition set_log (f : list (list Val) -> list (list Val)) (c : Core) : Core :=
  mkCore (world c) (promises c) (heap c) (micro c) (macro c) (f (log c)) (calls c)
         (asked c).

Definition set_calls (f : list (string * string) -> list (string * string)) (c : Core)
  : Core :=
  mkCore (world c) (promises c) (heap c) (micro c) (macro c) (log c) (f (calls c))
         (asked c).

Definition set_asked (f : list (Val * Val) -> list (Val * Val)) (c : Core) : Core :=
  mkCore (world c) (promises c) (heap c) (micro c) (macro c) (log c) (calls c)
         (f (asked c)).

Definition set_world (f : World -> World) (c : Core) : Core :=
  mkCore (f (world c)) (promises c) (heap c) (micro c) (macro c) (log c) (calls c)
         (asked c).

Definition enqueue (job : Task * (nat * nat)) (c : Core) : Core :=
  set_micro (fun q => q ++ [job]) c.

Definition enqueue_macro (m : Macro) (c : Core) : Core :=
  set_macro (fun q => q ++ [m]) c.

Definition promise_at (p : nat * nat) (c : Core) : option PState :=
  match list_lookup (fst p) (promises c) with
  | Some row => list_lookup (snd p) row
  | None => None
  end.

Definition put_promise (p : nat * nat) (x : PState) (c : Core) : Core :=
  set_promises (list_alter (fun row => list_insert (snd p) x row) (fst p)) c.

(** The name the next promise created in the course of call [n] will get. *)
Definition next_promise (n : nat) (c : Core) : nat * nat :=
  (n, List.length (default [] (list_lookup n (promises c)))).

(** A fresh pending promise in the course of call [n]. *)
Definition alloc (n : nat) (c : Core) : Core :=
  set_promises (list_alter (fun row => row ++ [Pending []]) n) c.

Definition subscribe (p : nat * nat) (r : Reaction) (c : Core) : Core :=
  match promise_at p c with
  | Some (Pending rs) => put_promise p (Pending (rs ++ [r])) c
  | Some (Fulfilled v) => enqueue (onFul r v, target r) c
  | Some (Rejected e) => enqueue (onRej r e, target r) c
  | None => c
  end.

Definition jobs_of (out : PState) (rs : list Reaction) : list (Task * (nat * nat)) :=
  match out with
  | Fulfilled v => map (fun r => (onFul r v, target r)) rs
  | Rejected e => map (fun r => (onRej r e, target r)) rs
  | Pending _ => []
  end.

(** Settling a pending promise queues one microtask per reaction; a settled
    promise never changes. *)
Definition settle (p : nat * nat) (out : PState) (c : Core) : Core :=
  match promise_at p c with
  | Some (Pending rs) => set_micro (fun q => q ++ jobs_of out rs) (put_promise p out c)
  | _ => c
  end.

(** Resolving with a promise makes the target follow it. *)
Definition resolve (p : nat * nat) (v : Val) (c : Core) : Core :=
  match v with
  | VProm q => subscribe q (mkReaction Return Throw p) c
  | _ => settle p (Fulfilled v) c
  end.

Definition reject (p : nat * nat) (e : Val) (c : Core) : Core :=
  settle p (Rejected e) c.

(** *** The maps and the files

    The four module-level [Map]s and the cache directory, behind the
    operations the program performs on them. *)

Class Store (S : Type) : Type := {
  map_get : MapName -> string -> S -> option Val;
  map_set : MapName -> string -> Val -> S -> S;
  map_delete : MapName -> string -> S -> S;
  file_read : string -> S -> option json;
  file_write : string -> json -> S -> S;
  file_unlink : string -> S -> S;
}.

Record Disk : Type := mkDisk {
  files : gmap string json;
  maps : MapName -> gmap string Val;
}.

Definition map_eqb (a b : MapName) : bool :=
  match a, b with
  | getting, getting | setting, setting
  | getOrSetting, getOrSetting | getOrSettingStale, getOrSettingStale => true
  | _, _ => false
  end.

Definition update_map (m : MapName) (f : gmap string Val -> gmap string Val)
  (d : Disk) : Disk :=
  mkDisk (files d) (fun m' => if map_eqb m m' then f (maps d m') else maps d m').

Definition update_files (f : gmap string json -> gmap string json) (d : Disk) : Disk :=
  mkDisk (f (files d)) (maps d).

#[export] Instance disk_store : Store Disk := {
  map_get m key d := maps d m !! key;
  map_set m key v := update_map m (insert key v);
  map_delete m key := update_map m (delete key);
  file_read file d := files d !! file;
  file_write file content := update_files (insert file content);
  file_unlink file := update_files (delete file);
}.

(** The same maps and files as seen through one key: a slot per map, and the
    content of the one file. The key given to an operation is not looked at. *)
Record Slots : Type := mkSlots {
  slot_file : option json;
  slot_getting : option Val;
  slot_setting : option Val;
  slot_getOrSetting : option Val;
  slot_getOrSettingStale : option Val;
}.

Definition slot (m : MapName) (c : Slots) : option Val :=
  match m with
  | getting => slot_getting c
  | setting => slot_setting c
  | getOrSetting => slot_getOrSetting c
  | getOrSettingStale => slot_getOrSettingStale c
  end.

Definition set_slot (m : MapName) (v : option Val) (c : Slots) : Slots :=
  match m with
  | getting =>
      mkSlots (slot_file c) v (slot_setting c) (slot_getOrSetting c)
              (slot_getOrSettingStale c)
  | setting =>
      mkSlots (slot_file c) (slot_getting c) v (slot_getOrSetting c)
              (slot_getOrSettingStale c)
  | getOrSetting =>
      mkSlots (slot_file c) (slot_getting c) (slot_setting c) v
              (slot_getOrSettingStale c)
  | getOrSettingStale =>
      mkSlots (slot_file c) (slot_getting c) (slot_setting c) (slot_getOrSetting c) v
  end.

Definition set_slot_file (o : option json) (c : Slots) : Slots :=
  mkSlots o (slot_getting c) (slot_setting c) (slot_getOrSetting c)
          (slot_getOrSettingStale c).

#[export] Instance slots_store : Store Slots := {
  map_get m _ c := slot m c;
  map_set m _ v := set_slot m (Some v);
  map_delete m _ := set_slot m None;
  file_read _ c := slot_file c;
  file_write _ content := set_slot_file (Some content);
  file_unlink _ := set_slot_file None;
}.

(** What [d] holds for the key [pk]. *)
Definition slots_of (pk : string) (d : Disk) : Slots :=
  mkSlots (files d !! pk) (maps d getting !! pk) (maps d setting !! pk)
          (maps d getOrSetting !! pk) (maps d getOrSettingStale !! pk).

Record State (S : Type) : Type := mkState {
  store : S;
  core : Core;
}.

Arguments mkState {S} _ _.
Arguments store {S} _.
Arguments core {S} _.

Section Loop.

Context {St : Type} `{Store St}.

Definition on_core (f : Core -> Core) (s : State St) : State St :=
  mkState (store s) (f (core s)).

Definition on_store (f : St -> St) (s : State St) : State St :=
  mkState (f (store s)) (core s).

(** Runs [t], whose outcome settles the promise [tgt], up to its next
    suspension. *)
Fixpoint exec (t : Task) (tgt : nat * nat) (s : State St) : State St :=
  match t with
  | Return v => on_core (resolve tgt v) s
  | Throw e => on_core (reject tgt e) s
  | Await v k h =>
      match v with
      | VProm q => on_core (subscribe q (mkReaction k h tgt)) s
      | _ => on_core (enqueue (k v, tgt)) s
      end
  | Spawn body k =>
      let p := next_promise (fst tgt) (core s) in
      exec (k p) tgt (exec body p (on_core (alloc (fst tgt)) s))
  | Then_ q f g k =>
      let p := next_promise (fst tgt) (core s) in
      exec (k p) tgt
        (on_core (fun c => subscribe q (mkReaction f g p) (alloc (fst tgt) c)) s)
  | MapGet m key k => exec (k (default VUndef (map_get m key (store s)))) tgt s
  | MapSet m key v k => exec k tgt (on_store (map_set m key v) s)
  | MapDelete m key k => exec k tgt (on_store (map_delete m key) s)
  | LoggerError args k => exec k tgt (on_core (set_log (fun l => l ++ [args])) s)
  | DateNow k => exec (k (VNum (now (world (core s))))) tgt s
  | Older a b k =>
      exec (k (older (world (core s)) (List.length (asked (core s))) a b)) tgt
        (on_core (set_asked (fun l => l ++ [(a, b)])) s)
  | IsBypassed k =>
      exec (k (nullish_or (inst_bypass (world (core s)))
                          (static_bypass (world (core s))))) tgt s
  | Timestring str k h =>
      match timestring (world (core s)) str with
      | Some n => exec (k (VNum n)) tgt s
      | None => exec (h (VErr "timestring")) tgt s
      end
  | Called fn arg k => exec k tgt (on_core (set_calls (fun l => l ++ [(fn, arg)])) s)
  | NewCtx c k =>
      exec (k (List.length (heap (core s)))) tgt
        (on_core (set_heap (fun h => h ++ [c])) s)
  | GetCtx o k => exec (k (default empty_ctx (list_lookup o (heap (core s))))) tgt s
  | SetCtx o f k =>
      exec k tgt
        (on_core
           (set_heap (fun h => list_insert o (f (default empty_ctx (list_lookup o h))) h))
           s)
  | FsReadFile file k =>
      let p := next_promise (fst tgt) (core s) in
      exec (k p) tgt
        (on_core (fun c => enqueue_macro (IoRead file p) (alloc (fst tgt) c)) s)
  | FsWriteFile file content k =>
      let p := next_promise (fst tgt) (core s) in
      exec (k p) tgt
        (on_core (fun c => enqueue_macro (IoWrite file content p) (alloc (fst tgt) c)) s)
  | FsUnlink file k =>
      let p := next_promise (fst tgt) (core s) in
      exec (k p) tgt
        (on_core (fun c => enqueue_macro (IoUnlink file p) (alloc (fst tgt) c)) s)
  | SetTimeout body k => exec k tgt (on_core (enqueue_macro (Timer (fst tgt) body)) s)
  end.

(** Completion of an I/O request, or the firing of a timer. A write publishes
    the whole content or fails and leaves the file as it was. *)
Definition run_macro (m : Macro) (s : State St) : State St :=
  match m with
  | IoRead file p =>
      match read_fault (world (core s)) file with
      | Some e => on_core (reject p e) s
      | None =>
          match file_read file (store s) with
          | Some content => on_core (settle p (Fulfilled (VJson content))) s
          | None => on_core (reject p (VErr "ENOENT")) s
          end
      end
  | IoWrite file content p =>
      match write_fault (world (core s)) file with
      | Some e => on_core (reject p e) s
      | None =>
          on_core (settle p (Fulfilled VUndef)) (on_store (file_write file content) s)
      end
  | IoUnlink file p =>
      match file_read file (store s) with
      | Some _ => on_core (settle p (Fulfilled VUndef)) (on_store (file_unlink file) s)
      | None => on_core (reject p (VErr "ENOENT")) s
      end
  | Timer n body => exec body (next_promise n (core s)) (on_core (alloc n) s)
  end.

(** One turn of the loop: the oldest microtask if there is one, otherwise the
    oldest macrotask. *)
Definition step (s : State St) : option (State St) :=
  match micro (core s) with
  | (t, tgt) :: rest => Some (exec t tgt (on_core (set_micro (fun _ => rest)) s))
  | [] =>
      match macro (core s) with
      | m :: rest => Some (run_macro m (on_core (set_macro (fun _ => rest)) s))
      | [] => None
      end
  end.

Fixpoint run (fuel : nat) (s : State St) : State St :=
  match fuel with
  | O => s
  | S n => match step s with Some s' => run n s' | None => s end
  end.

Definition quiescent (s : State St) : bool :=
  match micro (core s), macro (core s) with [], [] => true | _, _ => false end.

(** The promise a call made by the embedding program returns. *)
Definition call_promise (s : State St) : nat * nat :=
  (List.length (promises (core s)), 0%nat).

(** The state once the synchronous part of that call has run. *)
Definition call (body : Task) (s : State St) : State St :=
  exec body (call_promise s)
    (on_core (set_promises (fun tbl => tbl ++ [[Pending []]])) s).

Definition outcome (p : nat * nat) (s : State St) : option PState :=
  promise_at p (core s).

(** The state of a process that has not used the cache yet. *)
Definition init (w : World) (st : St) : State St :=
  mkState st (mkCore w [] [] [] [] [] [] []).

End Loop.

(** A directory holding [fs], and empty maps. *)
Definition disk (fs : gmap string json) : Disk := mkDisk fs (fun _ => ∅).

(** The clock that shows [t] whenever it is asked. *)
Definition clock (t : Z) : nat -> Val -> Val -> bool :=
  fun _ a b => lt_minus a (VNum t) b.

(** A world at time [t] without faults, in which no TTL string parses, and no
    bypass. *)
Definition calm (t : Z) : World :=
  mkWorld t (clock t) (fun _ => None) (fun _ => None) (fun _ => None) VFalse VUndef.

(** ** The file backend on the abstract file system

    A file is named by the key it is derived from ([keyToFile] above gives the
    path); its content is the parsed envelope. *)

Module Backend.

Definition is_ENOENT (e : Val) : bool :=
  match e with VErr code => String.eqb code "ENOENT" | _ => false end.

(** [FileCacheBackend.get(key)] *)
Definition get (key : string) : Task :=
  FsReadFile key (fun p =>
  Await (VProm p)
    (fun content => Return content)
    (fun e => if is_ENOENT e then Return VUndef else Throw e)).

(** [FileCacheBackend.set(key, value, {t, c})]: the directory is made, the
    temporary file written and renamed onto the target, as one request. *)
Definition set (key : string) (value t c : Val) : Task :=
  FsWriteFile key (envelope (to_json t) (to_json c) (to_json value))
    (fun p => Await (VProm p) (fun _ => Return VUndef) Throw).

(** [keys.map((key) => fs.unlink(...).catch(e => {}))] *)
Fixpoint unlink_each (keys : list string) (started : list (nat * nat))
  (k : list (nat * nat) -> Task) : Task :=
  match keys with
  | [] => k started
  | key :: rest =>
      FsUnlink key (fun p =>
      Then_ p (fun v => Return v) (fun _ => Return VUndef) (fun q =>
      unlink_each rest (started ++ [q]) k))
  end.

(** [await Promise.all(ps)] for promises that are awaited in turn. *)
Fixpoint await_all (ps : list (nat * nat)) (k : Task) : Task :=
  match ps with
  | [] => k
  | p :: rest => Await (VProm p) (fun _ => await_all rest k) Throw
  end.

(** [FileCacheBackend.del(keys)] *)
Definition del (keys : list string) : Task :=
  unlink_each keys [] (fun ps => await_all ps (Return VUndef)).

(** The body of the callback of [touch], for one key. *)
Definition touch_one (key : string) (t c : Val) : Task :=
  try_await_call (get key) (fun val =>
    if negb (truthy val) then Return VUndef
    else
      try_await_call
        (set key (prop "v" val) (nullish_or t (prop "t" val)) (nullish_or c (prop "c" val)))
        (fun _ => Return VUndef)
        (fun _ => Return VUndef))
    (fun _ => Return VUndef).

Fixpoint touch_each (keys : list string) (t c : Val) (started : list (nat * nat))
  (k : list (nat * nat) -> Task) : Task :=
  match keys with
  | [] => k started
  | key :: rest =>
      Spawn (touch_one key t c) (fun p => touch_each rest t c (started ++ [p]) k)
  end.

(** [FileCacheBackend.touch(keys, {t, c})] *)
Definition touch (keys : list string) (t c : Val) : Task :=
  touch_each keys t c [] (fun ps => await_all ps (Return VUndef)).

End Backend.

(** ** BaseCache *)

(** [CacheSetOpts], in its object form. *)
Record Options : Type := mkOptions {
  ttl : Val;
  staleTTL : Val;
  requireResult : Val;
  freshResult : Val;
  forceUpdate : Val;
  fromJSON : option (Val -> Result);
  process : option (Val -> Result);
  default_ : Val;
}.

(** [{}] *)
Definition no_options : Options :=
  mkOptions VUndef VUndef VUndef VUndef VUndef None None VUndef.

(** A function given as [value]: it returns a plain value (or throws), or it
    is [async] and returns the promise of its body. *)
Inductive Producer : Type :=
| SyncFn (name : string) (f : string -> Result)
| AsyncFn (name : string) (body : string -> Task).

(** The [value] argument of [set] and [getOrSet]: a value (which may be a
    promise or [undefined]) or a function. *)
Inductive Input : Type :=
| IVal (v : Val)
| IFun (f : Producer).

(** The [key] argument of [del] and [markStale]. *)
Inductive Keys : Type :=
| One (key : string)
| Many (keys : list string).

(** The second argument of the registry accessors. *)
Inductive FetchArg : Type :=
| FVal (v : Val)
| DELETE.

Record Cache : Type := mkCache {
  class_name : string;
  prefix : string;
  KEY_SEP : string;
}.

Module BaseCache.

Definition CACHE_ID : string := "HC".
Definition GLOBAL_PREFIX : string := "a".

Section Methods.

Variable this : Cache.

Definition keyPath : string :=
  String.concat (KEY_SEP this) [CACHE_ID; GLOBAL_PREFIX; prefix this].

(** [_key(key)] *)
Definition _key (key : string) : string :=
  (keyPath ++ KEY_SEP this ++ key)%string.

(** [_withDefault(promise, defaultValue)] *)
Definition _withDefault (promise defaultValue : Val) : Task :=
  await promise (fun value =>
  if is_undef value then Return defaultValue else Return value).

(** [opts.process ? opts.process(value) : value], as a returned value *)
Definition apply_process (f : option (Val -> Result)) (value : Val) (k : Val -> Task)
  : Task :=
  match f with
  | Some g => match g value with Ok x => k x | Raise e => Throw e end
  | None => k value
  end.

(** [opts.f ? (await opts.f(value)) : value] *)
Definition await_process (f : option (Val -> Result)) (value : Val) (k : Val -> Task)
  : Task :=
  match f with
  | Some g => match g value with Ok x => await x k | Raise e => Throw e end
  | None => k value
  end.

(** [_withDefaultOpts(promise, opts)] *)
Definition _withDefaultOpts (promise : Val) (opts : Options) : Task :=
  await promise (fun value =>
  if is_undef value then Return (default_ opts)
  else apply_process (process opts) value Return).

(** [parseTTL(ttl)] *)
Definition parseTTL (ttl : Val) (k : Val -> Task) : Task :=
  match ttl with
  | VStr s => Timestring s k Throw
  | _ => k ttl
  end.

(** [setCtxStale(ctx, value)] *)
Definition setCtxStale (ctx : nat) (value : Val) (k : Task) : Task :=
  GetCtx ctx (fun c =>
  if truthy (ctx_staleTTL c) then
    match get_prop "c" value with
    | Raise e => Throw e
    | Ok created =>
        Older created (ctx_staleTTL c) (fun old =>
        if old
        then SetCtx ctx (fun c => mkCtx (ctx_staleTTL c) VTrue (ctx_result c)) k
        else k)
    end
  else k).

(** [_fetching(map, key, value)] *)
Definition _fetching (map : MapName) (key : string) (value : FetchArg) (k : Val -> Task)
  : Task :=
  let prefixedKey := _key key in
  match value with
  | FVal VUndef => MapGet map prefixedKey k
  | DELETE => MapDelete map prefixedKey (k VUndef)
  | FVal v => MapSet map prefixedKey v (k v)
  end.

Definition _getting := _fetching getting.
Definition _setting := _fetching setting.
Definition _getOrSetting := _fetching getOrSetting.
Definition _getOrSettingStale := _fetching getOrSettingStale.

Definition key_list (key : Keys) : list string :=
  map _key (match key with One k => [k] | Many ks => ks end).

(** [_del(key)] *)
Definition _del (key : Keys) : Task :=
  let keys := key_list key in
  try_await_call (Backend.del keys)
    (fun _ => Return VUndef)
    (fun e => LoggerError [e] (Return VUndef)).

(** [_get(key)] *)
Definition _get (key : string) : Task :=
  try_await_call (Backend.get (_key key))
    (fun val =>
     if truthy val && truthy (prop "t" val) then
       Older (prop "c" val) (prop "t" val) (fun expired =>
       if expired
       then Spawn (_del (One key)) (fun _ => Return VUndef)
       else Return val)
     else Return val)
    (fun e => LoggerError [e] (Return VUndef)).

(** [_set(key, value, ttl, createdAt)] *)
Definition _set (key : string) (value ttl createdAt : Val) : Task :=
  if is_undef value then Return VTrue
  else
    DateNow (fun n =>
    try_await_call
      (Backend.set (_key key) value ttl (if truthy createdAt then createdAt else n))
      (fun _ => Return VTrue)
      (fun e => LoggerError [e] (Return VFalse))).

(** [_markStale(key)] *)
Definition _markStale (key : Keys) : Task :=
  let keys := key_list key in
  try_await_call (Backend.touch keys VUndef (VNum 0))
    (fun _ => Return VUndef)
    (fun e => LoggerError [e] (Return VUndef)).

(** [_setBoth(key, value, options)] *)
Definition _setBoth (key : string) (value : Val) (options : Options) : Task :=
  if is_undef value then Return VUndef
  else
    parseTTL (ttl options) (fun ttl =>
    await_process (process options) value (fun localVal =>
    DateNow (fun n =>
    await_call (_set key value ttl n) (fun _ =>
    Return localVal)))).

(** A [ctx = {}] default parameter. *)
Definition with_ctx (ctx : option nat) (k : nat -> Task) : Task :=
  match ctx with
  | Some o => k o
  | None => NewCtx empty_ctx k
  end.

(** The callback that [getStale] chains on [_get(key)]. *)
Definition getStale_then (options : Options) (ctx : nat) (value : Val) : Task :=
  if is_undef value then Return value
  else
    setCtxStale ctx value (
    match get_prop "v" value with
    | Raise e => Throw e
    | Ok val =>
        await_process (fromJSON options) val (fun val =>
        await_process (process options) val (fun val =>
        Return val))
    end).

(** [getStale(key, defaultValue, options, ctx)] *)
Definition getStale (key : string) (defaultValue : Val) (options : Options)
  (ctx : option nat) : Task :=
  with_ctx ctx (fun ctx =>
  _getting key (FVal VUndef) (fun gettingPromise =>
  if truthy gettingPromise then
    await gettingPromise (fun value =>
    if is_undef value then Return defaultValue else Return value)
  else
    Spawn (_get key) (fun got =>
    Then_ got (getStale_then options ctx) Throw (fun promise =>
    _getting key (FVal (VProm promise)) (fun _ =>
    await (VProm promise) (fun value =>
    _getting key DELETE (fun _ =>
    if is_undef value then Return defaultValue else Return value))))))).

(** [get(key, defaultValue, options)] *)
Definition get (key : string) (defaultValue : Val) (options : Options) : Task :=
  _setting key (FVal VUndef) (fun settingPromise =>
  if truthy settingPromise then return_call (_withDefault settingPromise defaultValue)
  else return_call (getStale key defaultValue options None)).

(** The [catch] block of [set]. *)
Definition set_catch (key : string) (error : Val) : Task :=
  LoggerError
    [VStr ("[" ++ class_name this ++ "] [" ++ prefix this
           ++ "] error while setting key " ++ key)%string; error] (
  await_call (_del (One key)) (fun _ =>
  _setting key DELETE (fun _ =>
  Throw error))).

(** [ctx.result = await this._setBoth(key, value, options)] and what follows
    it in the [try] block of [set]. *)
Definition set_store (key : string) (value : Val) (options : Options) (ctx : nat)
  : Task :=
  try_await_call (_setBoth key value options)
    (fun result =>
     SetCtx ctx (fun c => mkCtx (ctx_staleTTL c) (ctx_isStale c) result) (
     _setting key DELETE (fun _ =>
     Return VTrue)))
    (set_catch key).

(** [set(key, value, options, ctx)] when [value] is not a function; every
    rejection inside the [try] block enters [set_catch]. *)
Definition set_value (key : string) (value : Val) (options : Options) (ctx : nat)
  : Task :=
  if is_thenable value then
    _setting key (FVal value) (fun _ =>
    Await value
      (fun resolvedValue => set_store key resolvedValue options ctx)
      (set_catch key))
  else if is_undef value then
    LoggerError
      [VStr ("[" ++ class_name this ++ "] [" ++ prefix this
             ++ "] attempt to set " ++ key ++ "=undefined")%string] (
    Return VFalse)
  else
    Spawn (Return value) (fun resolved =>
    _setting key (FVal (VProm resolved)) (fun _ =>
    set_store key value options ctx)).

Definition producer_name (f : Producer) : string :=
  match f with SyncFn name _ => name | AsyncFn name _ => name end.

(** [value(key)] for a function [value]; [h] receives what it throws. *)
Definition invoke (f : Producer) (key : string) (k : Val -> Task) (h : Val -> Task)
  : Task :=
  Called (producer_name f) key (
  match f with
  | SyncFn _ g => match g key with Ok v => k v | Raise e => h e end
  | AsyncFn _ body => Spawn (body key) (fun p => k (VProm p))
  end).

(** [set(key, value, options, ctx)]: a function is called and [set] is entered
    again with what it returned. *)
Definition set (key : string) (value : Input) (options : Options) (ctx : option nat)
  : Task :=
  with_ctx ctx (fun ctx =>
  match value with
  | IVal v => set_value key v options ctx
  | IFun f =>
      invoke f key
        (fun v => return_call (set_value key v options ctx))
        (set_catch key)
  end).

Definition input_is_undef (value : Input) : bool :=
  match value with IVal v => is_undef v | IFun _ => false end.

(** [_getOrSet(key, value, options)] *)
Definition _getOrSet (key : string) (value : Input) (options : Options) : Task :=
  await_call (getStale key VUndef options None) (fun existingValue =>
  if negb (is_undef existingValue) then Return existingValue
  else if input_is_undef value then Return (default_ options)
  else
    NewCtx empty_ctx (fun ctx =>
    await_call (set key value options (Some ctx)) (fun _ =>
    GetCtx ctx (fun c =>
    if is_undef (ctx_result c) then Return (default_ options)
    else Return (ctx_result c))))).

(** The bypassed branch shared by [getOrSet] and [_getOrSetStale]. *)
Definition bypassed (key : string) (value : Input) (options : Options) : Task :=
  match value with
  | IFun f => invoke f key (fun v => return_call (_withDefaultOpts v options)) Throw
  | IVal v => return_call (_withDefaultOpts v options)
  end.

(** [_setWithCheck(key, value, options)] *)
Definition _setWithCheck (key : string) (value : Input) (options : Options) : Task :=
  _setting key (FVal VUndef) (fun settingPromise =>
  if truthy settingPromise then return_call (_withDefaultOpts settingPromise options)
  else
    NewCtx empty_ctx (fun setCtx =>
    await_call (set key value options (Some setCtx)) (fun _ =>
    GetCtx setCtx (fun c =>
    if is_undef (ctx_result c) then Return (default_ options)
    else Return (ctx_result c))))).

(** The function handed to [setTimeout] by [_setBackground]. *)
Definition background_job (key : string) (value : Input) (options : Options) : Task :=
  Spawn (set key value options None) (fun p =>
  Then_ p (fun v => Return v) (fun _ => Return VUndef) (fun q =>
  await (VProm q) (fun _ =>
  _getOrSettingStale key DELETE (fun _ =>
  Return VUndef)))).

(** [_setBackground(key, value, options)] *)
Definition _setBackground (key : string) (value : Input) (options : Options) : Task :=
  _getOrSettingStale key (FVal VUndef) (fun refreshing =>
  if truthy refreshing then Return VUndef
  else
    _getOrSettingStale key (FVal VTrue) (fun _ =>
    SetTimeout (background_job key value options) (
    Return VUndef))).

(** Where the value is to be generated, decided by [_getOrSetStale]. *)
Inductive Generate : Type := InBackground | InForeground | DontGenerate.

Definition generateInBg (existingValue : Val) (c : Ctx) (options : Options) : Generate :=
  if is_undef existingValue then
    if negb (is_false (requireResult options)) || truthy (freshResult options)
    then InForeground else InBackground
  else if truthy (ctx_isStale c) then
    if truthy (freshResult options) then InForeground else InBackground
  else DontGenerate.

(** [_getOrSetStale(key, value, options)] *)
Definition _getOrSetStale (key : string) (value : Input) (options : Options) : Task :=
  IsBypassed (fun b =>
  if truthy b then bypassed key value options
  else if truthy (forceUpdate options) then return_call (_setWithCheck key value options)
  else
    parseTTL (staleTTL options) (fun stale =>
    NewCtx (mkCtx stale VUndef VUndef) (fun ctx =>
    await_call (getStale key VUndef options (Some ctx)) (fun existingValue =>
    GetCtx ctx (fun c =>
    match generateInBg existingValue c options with
    | InForeground => return_call (_setWithCheck key value options)
    | InBackground =>
        Spawn (_setBackground key value options) (fun _ =>
        if is_undef existingValue then Return (default_ options)
        else Return existingValue)
    | DontGenerate =>
        if is_undef existingValue then Return (default_ options)
        else Return existingValue
    end))))).

(** [getOrSet(key, value, options)] *)
Definition getOrSet (key : string) (value : Input) (options : Options) : Task :=
  if truthy (staleTTL options) then return_call (_getOrSetStale key value options)
  else
    _getOrSetting key (FVal VUndef) (fun settingPromise =>
    if truthy settingPromise then return_call (_withDefaultOpts settingPromise options)
    else
      IsBypassed (fun b =>
      if truthy b then bypassed key value options
      else if truthy (forceUpdate options)
      then return_call (_setWithCheck key value options)
      else
        Spawn (_getOrSet key value options) (fun promise =>
        _getOrSetting key (FVal (VProm promise)) (fun _ =>
        await (VProm promise) (fun result =>
        _getOrSetting key DELETE (fun _ =>
        Return result)))))).

(** [del(key)] *)
Definition del (key : Keys) : Task :=
  await_call (_del key) (fun _ => Return VUndef).

(** [markStale(key)] *)
Definition markStale (key : Keys) : Task :=
  await_call (_markStale key) (fun _ => Return VUndef).

End Methods.

End BaseCache.


(** ** Tasks that touch one key only

    [only pk t]: every map operation and every file request of [t], now or
    after any suspension, names [pk]. *)

Inductive only (pk : string) : Task -> Prop :=
| only_Return v : only pk (Return v)
| only_Throw e : only pk (Throw e)
| only_Await v k h :
    (forall x, only pk (k x)) -> (forall e, only pk (h e)) -> only pk (Await v k h)
| only_Spawn b k :
    only pk b -> (forall p, only pk (k p)) -> only pk (Spawn b k)
| only_Then p f g k :
    (forall x, only pk (f x)) -> (forall e, only pk (g e)) ->
    (forall q, only pk (k q)) -> only pk (Then_ p f g k)
| only_MapGet m k : (forall v, only pk (k v)) -> only pk (MapGet m pk k)
| only_MapSet m v k : only pk k -> only pk (MapSet m pk v k)
| only_MapDelete m k : only pk k -> only pk (MapDelete m pk k)
| only_LoggerError args k : only pk k -> only pk (LoggerError args k)
| only_DateNow k : (forall n, only pk (k n)) -> only pk (DateNow k)
| only_Older a b k : (forall x, only pk (k x)) -> only pk (Older a b k)
| only_IsBypassed k : (forall b, only pk (k b)) -> only pk (IsBypassed k)
| only_Timestring str k h :
    (forall n, only pk (k n)) -> (forall e, only pk (h e)) -> only pk (Timestring str k h)
| only_Called fn arg k : only pk k -> only pk (Called fn arg k)
| only_NewCtx c k : (forall o, only pk (k o)) -> only pk (NewCtx c k)
| only_GetCtx o k : (forall c, only pk (k c)) -> only pk (GetCtx o k)
| only_SetCtx o f k : only pk k -> only pk (SetCtx o f k)
| only_FsReadFile k : (forall p, only pk (k p)) -> only pk (FsReadFile pk k)
| only_FsWriteFile content k :
    (forall p, only pk (k p)) -> only pk (FsWriteFile pk content k)
| only_FsUnlink k : (forall p, only pk (k p)) -> only pk (FsUnlink pk k)
| only_SetTimeout b k : only pk b -> only pk k -> only pk (SetTimeout b k).

Definition reaction_ok (pk : string) (r : Reaction) : Prop :=
  (forall x, only pk (onFul r x)) /\ (forall e, only pk (onRej r e)).

Definition pstate_ok (pk : string) (x : PState) : Prop :=
  match x with
  | Pending rs => Forall (reaction_ok pk) rs
  | _ => True
  end.

Definition macro_ok (pk : string) (m : Macro) : Prop :=
  match m with
  | IoRead file _ => file = pk
  | IoWrite file _ _ => file = pk
  | IoUnlink file _ => file = pk
  | Timer _ body => only pk body
  end.

(** Everything that is waiting to run touches [pk] only. *)
Definition ok (pk : string) (c : Core) : Prop :=
  Forall (fun job => only pk (fst job)) (micro c)
  /\ Forall (macro_ok pk) (macro c)
  /\ Forall (Forall (pstate_ok pk)) (promises c).

(** The state of the program as far as [pk] is concerned. *)
Definition view (pk : string) (s : State Disk) : State Slots :=
  mkState (slots_of pk (store s)) (core s).

(** The same state under a clock that answers as [f] does. *)
Definition with_older {St : Type} (f : nat -> Val -> Val -> bool) (s : State St)
  : State St :=
  mkState (store s)
    (set_world (fun w => mkWorld (now w) f (read_fault w) (write_fault w)
                                 (timestring w) (static_bypass w) (inst_bypass w))
               (core s)).

(** A producer given as [value] touches [pk] only. *)
Definition input_only (pk key : string) (value : Input) : Prop :=
  match value with
  | IFun (AsyncFn _ body) => only pk (body key)
  | _ => True
  end.

(** ** Scenarios

    What the embedding program does: it calls a method and keeps the promise,
    or lets the loop take a number of turns. The first call returns promise
    [(0, 0)], the second [(1, 0)], and so on. *)

Inductive Action : Type :=
| Call (t : Task)
| Turns (n : nat).

Definition act {St : Type} `{Store St} (a : Action) (s : State St) : State St :=
  match a with
  | Call t => call t s
  | Turns n => run n s
  end.

Fixpoint play {St : Type} `{Store St} (acts : list Action) (s : State St) : State St :=
  match acts with
  | [] => s
  | a :: rest => play rest (act a s)
  end.

Definition action_only (pk : string) (a : Action) : Prop :=
  match a with
  | Call t => only pk t
  | Turns _ => True
  end.

(** What the disk holds for a key when the maps are empty. *)
Definition slots_init (o : option json) : Slots := mkSlots o None None None None.

(** The promise returned by the [n]-th call of a scenario. *)
Definition promise_of (n : nat) : nat * nat := (n, 0%nat).

(** ** Changing the clock

    The loop consults the clock through [Older] only, and records every
    question. *)

(** [g] leaves the world and the recorded questions alone. *)
Definition keeps (g : Core -> Core) : Prop :=
  forall c, world (g c) = world c /\ asked (g c) = asked c.

(** [g] does not look at the world. *)
Definition commutes (g : Core -> Core) : Prop :=
  forall h c, g (set_world h c) = set_world h (g c).

(** [s'] comes after [s]: same world, and the questions of [s] first. *)
Definition after {St : Type} (s s' : State St) : Prop :=
  world (core s') = world (core s)
  /\ exists l, asked (core s') = asked (core s) ++ l.

(** [f] answers the questions recorded in [s'] as the clock of [s] does. *)
Definition agrees {St : Type} (f : nat -> Val -> Val -> bool) (s s' : State St) : Prop :=
  forall i a b,
    asked (core s') !! i = Some (a, b) -> f i a b = older (world (core s)) i a b.

(** ** Producers, worlds and digests used in the statements *)

(** [() => { throw e }] *)
Definition throws (name : string) (e : Val) : Producer :=
  SyncFn name (fun _ => Raise e).

(** [() => v] *)
Definition returns (name : string) (v : Val) : Producer :=
  SyncFn name (fun _ => Ok v).

(** [async () => v] *)
Definition resolves (name : string) (v : Val) : Producer :=
  AsyncFn name (fun _ => Return v).

(** [async () => { throw e }] *)
Definition rejects (name : string) (e : Val) : Producer :=
  AsyncFn name (fun _ => Throw e).

(** [x => x + 1] on numbers, as a [process] option. *)
Definition increment (v : Val) : Result :=
  match v with
  | VNum n => Ok (VNum (n + 1))
  | _ => Ok v
  end.

(** The world [w] with another clock. *)
Definition rescript (f : nat -> Val -> Val -> bool) (w : World) : World :=
  mkWorld (now w) f (read_fault w) (write_fault w) (timestring w) (static_bypass w)
          (inst_bypass w).

(** A clock that gives the listed answers, in order, and [false] afterwards. *)
Definition scripted (answers : list bool) : nat -> Val -> Val -> bool :=
  fun i _ _ => default false (list_lookup i answers).

(** [f] and [g] give the same answer to each of the questions [qs], the first
    of which is question number [i]. *)
Fixpoint answers_match (f g : nat -> Val -> Val -> bool) (i : nat)
  (qs : list (Val * Val)) : Prop :=
  match qs with
  | [] => True
  | (a, b) :: rest => f i a b = g i a b /\ answers_match f g (S i) rest
  end.

(** A world at time [t] in which every write to the disk fails with [e]. *)
Definition failing_writes (t : Z) (e : Val) : World :=
  mkWorld t (clock t) (fun _ => None) (fun _ => Some e) (fun _ => None) VFalse VUndef.

(** [{ttl: t}] *)
Definition with_ttl (t : Val) : Options :=
  mkOptions t VUndef VUndef VUndef VUndef None None VUndef.

(** A stand-in for the SHA-1 digest: 27 characters, as [base64url] yields. *)
Definition toy_digest (s : string) : string :=
  "k3Jv0_9aQ-xZ7pLm2RtYb5WcE8u".

(** [n] copies of [a]. *)
Fixpoint repeat_char (a : ascii) (n : nat) : string :=
  match n with
  | O => ""
  | S n' => String a (repeat_char a n')
  end.

(** No vertical tab among the code units of [s]. *)
Fixpoint no_vtab (s : string) : bool :=
  match s with
  | EmptyString => true
  | String a s' => negb (Ascii.eqb a "011") && no_vtab s'
  end.

(** A key of 3003 code units whose first segment has 3000 of them. *)
Definition long_key : string :=
  (repeat_char "a" 3000 ++ KEY_SEPARATOR ++ "b")%string.

(** [new FileCache('api')] *)
Definition api_cache : Cache := mkCache "FileCache" "api" KEY_SEPARATOR.

(** The file of the key ["k"] of [api_cache]. *)
Definition api_k : string := BaseCache._key api_cache "k".

(** [{process: f}] *)
Definition with_process (f : Val -> Result) : Options :=
  mkOptions VUndef VUndef VUndef VUndef VUndef None (Some f) VUndef.

(** The message [set] logs when it is given [undefined]. *)
Definition undefined_message (this : Cache) (key : string) : Val :=
  VStr ("[" ++ class_name this ++ "] [" ++ prefix this ++ "] attempt to set "
        ++ key ++ "=undefined")%string.

(** The message the [catch] block of [set] logs. *)
Definition failure_message (this : Cache) (key : string) : Val :=
  VStr ("[" ++ class_name this ++ "] [" ++ prefix this
        ++ "] error while setting key " ++ key)%string.

(** An entry without TTL, created at time [c]. *)
Definition plain_entry (c : Z) (v : json) : json :=
  envelope None (Some (JNum c)) (Some v).

(** [{ttl: t, staleTTL: st}] *)
Definition swr (t st : Val) : Options :=
  mkOptions t st VUndef VUndef VUndef None None VUndef.

(** [{ttl, staleTTL: st, requireResult: false, default: d}], where [ttl] and
    [d] may be left out. *)
Definition background_options (t : option Z) (st : Z) (d : option json) : Options :=
  mkOptions (of_json (JNum <$> t)) (VNum st) VFalse VUndef VUndef None None (of_json d).

(** An entry with a TTL that may be left out, created at time [c]. *)
Definition entry (t : option Z) (c : Z) (v : json) : json :=
  envelope (JNum <$> t) (Some (JNum c)) (Some v).

(** [{ttl, staleTTL: st}], where [ttl] may be left out. *)
Definition stale_options (t : option Z) (st : Z) : Options :=
  mkOptions (of_json (JNum <$> t)) (VNum st) VUndef VUndef VUndef None None VUndef.

(** The entry with TTL [t] created at [c] has not expired at time [now]. *)
Definition unexpired (t : option Z) (c now : Z) : Prop :=
  match t with
  | Some x => 0 < x /\ now - x <= c
  | None => True
  end.


(** ** Further options and worlds *)

(** [{ttl}], where [ttl] may be left out. *)
Definition ttl_options (t : option Z) : Options :=
  mkOptions (of_json (JNum <$> t)) VUndef VUndef VUndef VUndef None None VUndef.



(** A world at time [t] in which [timestring] answers [parsed] ([None]: it
    throws). *)
Definition parsing (t : Z) (parsed : option Z) : World :=
  mkWorld t (clock t) (fun _ => None) (fun _ => None) (fun _ => parsed) VFalse VUndef.

(** [{ttl, forceUpdate: true}] *)
Definition forcing_options (t : option Z) : Options :=
  mkOptions (of_json (JNum <$> t)) VUndef VUndef VUndef VTrue None None VUndef.

(** [{ttl, staleTTL: st, freshResult: true}] *)
Definition fresh_options (t : option Z) (st : Z) : Options :=
  mkOptions (of_json (JNum <$> t)) (VNum st) VUndef VTrue VUndef None None VUndef.

(** [{ttl, default: d}] *)
Definition default_options (t : option Z) (d : option json) : Options :=
  mkOptions (of_json (JNum <$> t)) VUndef VUndef VUndef VUndef None None (of_json d).

(** ** [memoize]

    [Math.random().toString(36).substring(2)] is the parameter [token];
    [options.keyFn] is the parameter [keyFn], and [fn] produces from the
    arguments the function that [getOrSet] is given. *)



(** ** Paths *)

(** Every code unit of [s] satisfies [p]. *)
Fixpoint string_forall (p : ascii -> bool) (s : string) : bool :=
  match s with
  | EmptyString => true
  | String a s' => p a && string_forall p s'
  end.

(** No two slashes in a row. *)
Fixpoint no_double_slash (s : string) : bool :=
  match s with
  | String a ((String b _) as s') =>
      negb (Ascii.eqb a slash && Ascii.eqb b slash) && no_double_slash s'
  | _ => true
  end.

(** The last code unit of [s], if any. *)
Fixpoint last_char (s : string) : option ascii :=
  match s with
  | EmptyString => None
  | String a EmptyString => Some a
  | String _ s' => last_char s'
  end.

(** A code unit that the older encoder lets through or produces. *)
Definition path_char (a : ascii) : bool := Ascii.eqb a slash || negb (is_unsafe a).

Section BackendPaths.

Variable sha1_base64url : string -> string.
Variable CACHE_DIR : string.

(** The file in which the entry of [key] is stored: what [BaseCache._get] and
    [BaseCache._set] hand to the backend, through [keyToFile]. *)
Definition entry_file (this : Cache) (key : string) : string :=
  keyToFile sha1_base64url CACHE_DIR (BaseCache._key this key).

(** The directory that [FileCacheBackend.clear(keyPath)] hands to [fs.rm],
    called by [BaseCache._clear] with [this.keyPath]. *)
Definition clear_target (this : Cache) : string :=
  keyToPath sha1_base64url CACHE_DIR (BaseCache.keyPath this).

End BackendPaths.

(** ** Many callers waiting on one computation *)

(** What [_withDefaultOpts(promise, opts)] does with the value of the
    promise. *)
Definition waiting (o : Options) (value : Val) : Task :=
  if is_undef value then Return (default_ o)
  else BaseCache.apply_process (process o) value Return.

(** The reaction that the [i]-th call of the program, a [getOrSet] that found
    a promise in [getOrSetting], leaves on that promise. *)
Definition follower_reaction (o : Options) (i : nat) : Reaction :=
  mkReaction (waiting o) Throw (i, 1%nat).

(** The promise returned by the [i]-th call follows its inner promise. *)
Definition forward (i : nat) : Reaction := mkReaction Return Throw (i, 0%nat).

Fixpoint follower_reactions (i : nat) (os : list Options) : list Reaction :=
  match os with
  | [] => []
  | o :: rest => follower_reaction o i :: follower_reactions (S i) rest
  end.

(** The rows of the promise table of the waiting calls: before the awaited
    promise settles, once the inner promise is fulfilled, and at the end. *)
Fixpoint waiting_rows (i : nat) (os : list Options) : list (list PState) :=
  match os with
  | [] => []
  | _ :: rest => [Pending []; Pending [forward i]] :: waiting_rows (S i) rest
  end.

Definition half_rows (v : Val) (os : list Options) : list (list PState) :=
  map (fun _ => [Pending []; Fulfilled v]) os.

Definition done_rows (v : Val) (os : list Options) : list (list PState) :=
  map (fun _ => [Fulfilled v; Fulfilled v]) os.

(** The microtasks of the waiting calls: the reactions to the fulfilled
    promise, and the forwarding of the result. *)
Fixpoint waiting_jobs (v : Val) (i : nat) (os : list Options)
  : list (Task * (nat * nat)) :=
  match os with
  | [] => []
  | o :: rest => (waiting o v, (i, 1%nat)) :: waiting_jobs v (S i) rest
  end.

Fixpoint forward_jobs (v : Val) (i : nat) (os : list Options)
  : list (Task * (nat * nat)) :=
  match os with
  | [] => []
  | _ :: rest => (Return v, (i, 0%nat)) :: forward_jobs v (S i) rest
  end.

Definition add_reactions (extras : list Reaction) (x : PState) : PState :=
  match x with
  | Pending rs => Pending (rs ++ extras)
  | _ => x
  end.

(** The loop with further reactions on the promise [q] and further rows in
    the promise table. *)
Definition attach (q : nat * nat) (extras : list Reaction) (rows : list (list PState))
  (c : Core) : Core :=
  set_promises
    (fun tbl => list_alter (list_alter (add_reactions extras) (snd q)) (fst q) tbl ++ rows)
    c.

(** The loop with further microtasks and further rows. *)
Definition deliver (jobs : list (Task * (nat * nat))) (rows : list (list PState))
  (c : Core) : Core :=
  set_micro (fun q => q ++ jobs) (set_promises (fun tbl => tbl ++ rows) c).

(** No [staleTTL] and no [process]. *)
Definition plain (o : Options) : Prop :=
  truthy (staleTTL o) = false /\ process o = None.

(** A world at time [t] in which every read of a file fails with [e]. *)
Definition failing_reads (t : Z) (e : Val) : World :=
  mkWorld t (clock t) (fun _ => Some e) (fun _ => None) (fun _ => None) VFalse VUndef.

(** [{fromJSON: f, process: g}] *)
Definition reading_options (f g : Val -> Result) : Options :=
  mkOptions VUndef VUndef VUndef VUndef VUndef (Some f) (Some g) VUndef.


(** ** The loop keeps to one key *)

Section OneKey.

Variable pk : string.

Lemma ok_enqueue job c : only pk (fst job) -> ok pk c -> ok pk (enqueue job c).
Proof.
  intros Hj (Hm & HM & Hp). repeat split; simpl; auto.
  apply Forall_app_2; auto.
Qed.

Lemma ok_enqueue_macro m c : macro_ok pk m -> ok pk c -> ok pk (enqueue_macro m c).
Proof.
  intros Hj (Hm & HM & Hp). repeat split; simpl; auto.
  apply Forall_app_2; auto.
Qed.

Lemma ok_alloc n c : ok pk c -> ok pk (alloc n c).
Proof.
  intros (Hm & HM & Hp). repeat split; simpl; auto.
  apply Forall_alter; auto. intros row _ Hrow.
  apply Forall_app_2; auto. repeat constructor.
Qed.

Lemma ok_new_row c : ok pk c -> ok pk (set_promises (fun tbl => tbl ++ [[Pending []]]) c).
Proof.
  intros (Hm & HM & Hp). repeat split; simpl; auto.
  apply Forall_app_2; auto. repeat constructor.
Qed.

Lemma ok_put_promise p x c : pstate_ok pk x -> ok pk c -> ok pk (put_promise p x c).
Proof.
  intros Hx (Hm & HM & Hp). repeat split; simpl; auto.
  apply Forall_alter; auto. intros row _ Hrow.
  apply (Forall_insert _ row); auto.
Qed.

Lemma ok_promise_at p c x : ok pk c -> promise_at p c = Some x -> pstate_ok pk x.
Proof.
  intros (_ & _ & Hp). unfold promise_at.
  destruct (list_lookup p.1 (promises c)) as [row|] eqn:E; [|discriminate].
  intros Hx.
  eapply (Forall_lookup_1 _ row); [|exact Hx].
  eapply (Forall_lookup_1 _ (promises c)); [exact Hp|exact E].
Qed.

Lemma ok_subscribe p r c : reaction_ok pk r -> ok pk c -> ok pk (subscribe p r c).
Proof.
  intros Hr Hc. unfold subscribe.
  destruct (promise_at p c) as [[rs|v|e]|] eqn:E; auto.
  - apply ok_put_promise; auto. simpl.
    apply Forall_app_2; [|constructor; [exact Hr|constructor]].
    exact (ok_promise_at _ _ _ Hc E).
  - apply ok_enqueue; auto. apply Hr.
  - apply ok_enqueue; auto. apply Hr.
Qed.

Lemma jobs_of_ok out rs :
  Forall (reaction_ok pk) rs -> Forall (fun job => only pk (fst job)) (jobs_of out rs).
Proof.
  intros Hrs. destruct out; simpl; [constructor| |];
    (induction Hrs as [|r rs Hr _ IH]; simpl; constructor; [apply Hr|exact IH]).
Qed.

Lemma ok_settle p out c :
  match out with Pending _ => False | _ => True end -> ok pk c -> ok pk (settle p out c).
Proof.
  intros Ho Hc. unfold settle.
  destruct (promise_at p c) as [[rs|v|e]|] eqn:E; auto.
  pose proof (ok_promise_at _ _ _ Hc E) as Hrs. simpl in Hrs.
  assert (Hc' : ok pk (put_promise p out c)).
  { apply ok_put_promise; auto. destruct out; simpl; auto; contradiction. }
  destruct Hc' as (Hm & HM & Hp). repeat split; simpl; auto.
  apply Forall_app_2; auto. apply jobs_of_ok; auto.
Qed.

Lemma ok_resolve p v c : ok pk c -> ok pk (resolve p v c).
Proof.
  intros Hc. destruct v; simpl; try (apply ok_settle; simpl; auto).
  apply ok_subscribe; auto. split; simpl; intros; constructor.
Qed.

Lemma ok_reject p e c : ok pk c -> ok pk (reject p e c).
Proof. intros Hc. apply ok_settle; simpl; auto. Qed.

Section AnyStore.

Context {St : Type} `{Store St}.

Lemma exec_ok t :
  only pk t -> forall tgt (s : State St), ok pk (core s) -> ok pk (core (exec t tgt s)).
Proof.
  induction 1; intros tgt st Hs; simpl;
    repeat first
      [ assumption
      | match goal with
        | IH : forall tgt s, ok pk (core s) -> ok pk (core (exec ?k tgt s))
          |- ok pk (core (exec ?k _ _)) => apply IH; simpl
        | IH : forall x tgt s, ok pk (core s) -> ok pk (core (exec (?k x) tgt s))
          |- ok pk (core (exec (?k _) _ _)) => apply IH; simpl
        | |- ok pk (alloc _ _) => apply ok_alloc
        | |- ok pk (resolve _ _ _) => apply ok_resolve
        | |- ok pk (reject _ _ _) => apply ok_reject
        | |- ok pk (enqueue _ _) => apply ok_enqueue; simpl
        | |- ok pk (enqueue_macro _ _) => apply ok_enqueue_macro; simpl
        | |- ok pk (subscribe _ _ _) => apply ok_subscribe; [split; simpl|]
        | |- ok pk (core match ?x with _ => _ end) => destruct x; simpl
        | |- only pk _ => solve [auto]
        | |- _ = _ => reflexivity
        | |- forall _, _ => intro
        end ].
  all: try exact Hs.
Qed.

Lemma run_macro_ok m (s : State St) :
  macro_ok pk m -> ok pk (core s) -> ok pk (core (run_macro m s)).
Proof.
  intros Hm Hs. destruct m; simpl in *.
  - destruct (read_fault _ _); simpl; [apply ok_reject; auto|].
    destruct (file_read _ _); simpl; [apply ok_settle|apply ok_reject]; simpl; auto.
  - destruct (write_fault _ _); simpl; [apply ok_reject|apply ok_settle]; simpl; auto.
  - destruct (file_read _ _); simpl; [apply ok_settle|apply ok_reject]; simpl; auto.
  - apply exec_ok; auto. simpl. apply ok_alloc; auto.
Qed.

Lemma step_ok (s s' : State St) : ok pk (core s) -> step s = Some s' -> ok pk (core s').
Proof.
  intros Hs. unfold step. destruct Hs as (Hm & HM & Hp).
  destruct (micro (core s)) as [|[t tgt] rest] eqn:Em.
  - destruct (macro (core s)) as [|m rest] eqn:EM; [discriminate|].
    intros [= <-]. inversion HM; subst.
    apply run_macro_ok; auto. repeat split; simpl; auto. rewrite Em. constructor.
  - intros [= <-]. inversion Hm; subst.
    apply exec_ok; auto. repeat split; simpl; auto.
Qed.

Lemma run_ok n : forall s : State St, ok pk (core s) -> ok pk (core (run n s)).
Proof.
  induction n as [|n IH]; intros s Hs; simpl; auto.
  destruct (step s) as [s'|] eqn:E; auto.
  apply IH. eapply step_ok; eauto.
Qed.

Lemma call_ok t (s : State St) : only pk t -> ok pk (core s) -> ok pk (core (call t s)).
Proof.
  intros Ht Hs. unfold call. apply exec_ok; auto. simpl. apply ok_new_row; auto.
Qed.

Lemma init_ok w (st : St) : ok pk (core (init w st)).
Proof. repeat split; simpl; constructor. Qed.

End AnyStore.

(** *** The disk and its view through [pk] run in step *)

Lemma view_map_set m v d :
  slots_of pk (update_map m (insert pk v) d) = set_slot m (Some v) (slots_of pk d).
Proof.
  destruct m; unfold slots_of, update_map, set_slot; simpl;
    rewrite lookup_insert_eq; reflexivity.
Qed.

Lemma view_map_delete m d :
  slots_of pk (update_map m (delete pk) d) = set_slot m None (slots_of pk d).
Proof.
  destruct m; unfold slots_of, update_map, set_slot; simpl;
    rewrite lookup_delete_eq; reflexivity.
Qed.

Lemma view_map_get m d : maps d m !! pk = slot m (slots_of pk d).
Proof. destruct m; reflexivity. Qed.

Lemma view_file_write content d :
  slots_of pk (update_files (insert pk content) d)
  = set_slot_file (Some content) (slots_of pk d).
Proof.
  unfold slots_of, update_files, set_slot_file; simpl.
  rewrite lookup_insert_eq; reflexivity.
Qed.

Lemma view_file_unlink d :
  slots_of pk (update_files (delete pk) d) = set_slot_file None (slots_of pk d).
Proof.
  unfold slots_of, update_files, set_slot_file; simpl.
  rewrite lookup_delete_eq; reflexivity.
Qed.

Lemma exec_view t :
  only pk t -> forall tgt s, view pk (exec t tgt s) = exec t tgt (view pk s).
Proof.
  induction 1; intros tgt st; simpl;
    repeat match goal with
    | IH : forall tgt s, view pk (exec ?k tgt s) = _
      |- context [view pk (exec ?k _ _)] => rewrite IH
    | IH : forall x tgt s, view pk (exec (?k x) tgt s) = _
      |- context [view pk (exec (?k _) _ _)] => rewrite IH
    | |- context [match ?x with _ => _ end] => destruct x
    end;
    unfold view; simpl;
    rewrite ?view_map_set, ?view_map_delete, ?view_map_get; reflexivity.
Qed.

Lemma run_macro_view m s :
  macro_ok pk m -> view pk (run_macro m s) = run_macro m (view pk s).
Proof.
  intros Hm. destruct m; simpl in *; subst.
  - destruct (read_fault _ _); [reflexivity|].
    destruct (files (store s) !! pk); reflexivity.
  - destruct (write_fault _ _); [reflexivity|].
    unfold view; simpl. rewrite view_file_write. reflexivity.
  - destruct (files (store s) !! pk); [|reflexivity].
    unfold view; simpl. rewrite view_file_unlink. reflexivity.
  - apply exec_view; auto.
Qed.

Lemma step_view s :
  ok pk (core s) -> step (view pk s) = option_map (view pk) (step s).
Proof.
  intros (Hm & HM & Hp). unfold step; simpl.
  destruct (micro (core s)) as [|[t tgt] rest] eqn:Em.
  - destruct (macro (core s)) as [|m rest] eqn:EM; [reflexivity|].
    simpl. inversion HM; subst. rewrite run_macro_view; auto.
  - simpl. inversion Hm; subst. rewrite exec_view; auto.
Qed.

Lemma run_view n : forall s, ok pk (core s) -> view pk (run n s) = run n (view pk s).
Proof.
  induction n as [|n IH]; intros s Hs; simpl; [reflexivity|].
  rewrite step_view by exact Hs.
  destruct (step s) as [s'|] eqn:E; simpl; [|reflexivity].
  apply IH. eapply step_ok; eauto.
Qed.

Lemma call_view t s : only pk t -> view pk (call t s) = call t (view pk s).
Proof. intros Ht. unfold call. rewrite exec_view by exact Ht. reflexivity. Qed.

Lemma init_view w d : view pk (init w d) = init w (slots_of pk d).
Proof. reflexivity. Qed.

End OneKey.


(** ** Changing the clock

    The loop consults the clock through [Older] only, and records every
    question; a clock that gives the same answers to the recorded questions
    leads to the same run. *)

Section Clock.

Lemma subscribe_keeps p r : keeps (subscribe p r).
Proof.
  intros c. unfold subscribe.
  destruct (promise_at p c) as [[rs|v|e]|]; split; reflexivity.
Qed.

Lemma settle_keeps p out : keeps (settle p out).
Proof.
  intros c. unfold settle.
  destruct (promise_at p c) as [[rs|v|e]|]; split; reflexivity.
Qed.

Lemma resolve_keeps p v : keeps (resolve p v).
Proof.
  destruct v; simpl; try apply settle_keeps. apply subscribe_keeps.
Qed.

Lemma reject_keeps p e : keeps (reject p e).
Proof. apply settle_keeps. Qed.

Lemma subscribe_commutes p r : commutes (subscribe p r).
Proof.
  intros h c. unfold subscribe.
  change (promise_at p (set_world h c)) with (promise_at p c).
  destruct (promise_at p c) as [[rs|v|e]|]; reflexivity.
Qed.

Lemma settle_commutes p out : commutes (settle p out).
Proof.
  intros h c. unfold settle.
  change (promise_at p (set_world h c)) with (promise_at p c).
  destruct (promise_at p c) as [[rs|v|e]|]; reflexivity.
Qed.

Lemma resolve_commutes p v : commutes (resolve p v).
Proof.
  destruct v; simpl; try apply settle_commutes. apply subscribe_commutes.
Qed.

Lemma reject_commutes p e : commutes (reject p e).
Proof. apply settle_commutes. Qed.

Context {St : Type} `{Store St}.

Lemma after_refl (s : State St) : after s s.
Proof. split; [reflexivity|]. exists []. symmetry. apply app_nil_r. Qed.

Lemma after_trans (s1 s2 s3 : State St) : after s1 s2 -> after s2 s3 -> after s1 s3.
Proof.
  intros [W1 [l1 A1]] [W2 [l2 A2]]. split; [congruence|].
  exists (l1 ++ l2). rewrite A2, A1, app_assoc. reflexivity.
Qed.

Lemma after_keeps g (s : State St) : keeps g -> after s (on_core g s).
Proof.
  intros Hg. destruct (Hg (core s)) as [W A]. split; simpl; [exact W|].
  exists []. rewrite A. symmetry. apply app_nil_r.
Qed.

Lemma exec_after t : forall tgt (s : State St), after s (exec t tgt s).
Proof.
  induction t; intros tgt st; simpl;
    repeat match goal with
    | |- after ?s ?s => apply after_refl
    | |- after _ (on_core (resolve _ _) _) => apply after_keeps, resolve_keeps
    | |- after _ (on_core (reject _ _) _) => apply after_keeps, reject_keeps
    | |- after _ (on_core (subscribe _ _) _) => apply after_keeps, subscribe_keeps
    | |- after _ match ?x with _ => _ end => destruct x
    | IH : forall tgt s, after s (exec ?k tgt s) |- after _ (exec ?k _ _) =>
        eapply after_trans; [|apply IH]
    | IH : forall x tgt s, after s (exec (?k x) tgt s) |- after _ (exec (?k _) _ _) =>
        eapply after_trans; [|apply IH]
    end;
    try (split; simpl; [reflexivity|exists []; symmetry; apply app_nil_r]).
  - apply after_keeps. intros c.
    match goal with |- context [subscribe ?q ?r ?c'] =>
      destruct (subscribe_keeps q r c') as [W A]
    end.
    split; [rewrite W|rewrite A]; reflexivity.
  - split; simpl; [reflexivity|]. eexists; reflexivity.
Qed.

Lemma run_macro_after m (s : State St) : after s (run_macro m s).
Proof.
  destruct m; simpl;
    repeat match goal with
    | |- after _ match ?x with _ => _ end => destruct x
    | |- after _ (on_core (reject _ _) _) => apply after_keeps, reject_keeps
    end.
  - apply after_keeps, settle_keeps.
  - eapply after_trans; [|apply after_keeps, settle_keeps].
    split; simpl; [reflexivity|exists []; symmetry; apply app_nil_r].
  - eapply after_trans; [|apply after_keeps, settle_keeps].
    split; simpl; [reflexivity|exists []; symmetry; apply app_nil_r].
  - eapply after_trans; [|apply exec_after].
    split; simpl; [reflexivity|exists []; symmetry; apply app_nil_r].
Qed.

Lemma step_after (s s' : State St) : step s = Some s' -> after s s'.
Proof.
  unfold step.
  destruct (micro (core s)) as [|[t tgt] rest].
  - destruct (macro (core s)) as [|m rest]; [discriminate|].
    intros [= <-]. eapply after_trans; [|apply run_macro_after].
    split; simpl; [reflexivity|exists []; symmetry; apply app_nil_r].
  - intros [= <-]. eapply after_trans; [|apply exec_after].
    split; simpl; [reflexivity|exists []; symmetry; apply app_nil_r].
Qed.

Lemma run_after n : forall s : State St, after s (run n s).
Proof.
  induction n as [|n IH]; intros s; simpl; [apply after_refl|].
  destruct (step s) as [s'|] eqn:E; [|apply after_refl].
  eapply after_trans; [eapply step_after; eauto|apply IH].
Qed.

Lemma agrees_before f (s s1 s2 : State St) :
  after s1 s2 -> after s s1 -> agrees f s s2 -> agrees f s s1.
Proof.
  intros [_ [l A]] _ Hf i a b Hi. apply Hf. rewrite A.
  apply lookup_app_l_Some. exact Hi.
Qed.

Lemma agrees_from f (s s1 s2 : State St) : after s s1 -> agrees f s s2 -> agrees f s1 s2.
Proof. intros [W _] Hf i a b Hi. rewrite W. apply Hf. exact Hi. Qed.

Lemma with_older_core f g (s : State St) :
  commutes g -> on_core g (with_older f s) = with_older f (on_core g s).
Proof. intros Hg. unfold with_older, on_core; simpl. rewrite Hg. reflexivity. Qed.

Lemma exec_older f t :
  forall tgt (s : State St),
    agrees f s (exec t tgt s) -> exec t tgt (with_older f s) = with_older f (exec t tgt s).
Proof.
  induction t; intros tgt st Hf; simpl in *.
  - apply with_older_core, resolve_commutes.
  - apply with_older_core, reject_commutes.
  - destruct v; try reflexivity. apply with_older_core, subscribe_commutes.
  - change (on_core (alloc tgt.1) (with_older f st))
      with (with_older f (on_core (alloc tgt.1) st)).
    set (p := next_promise tgt.1 (core st)) in *.
    set (s1 := on_core (alloc tgt.1) st) in *.
    assert (A1 : after st s1)
      by (split; simpl; [reflexivity|exists []; symmetry; apply app_nil_r]).
    pose proof (exec_after t p s1) as A2.
    pose proof (exec_after (k p) tgt (exec t p s1)) as A3.
    rewrite IHt.
    + apply H0. apply agrees_from with (s := st); [|exact Hf].
      exact (after_trans _ _ _ A1 A2).
    + apply agrees_from with (s := st); [exact A1|].
      exact (agrees_before f st _ _ A3 (after_trans _ _ _ A1 A2) Hf).
  - set (p' := next_promise tgt.1 (core st)) in *.
    match goal with |- exec _ _ (on_core ?g _) = _ =>
      replace (on_core g (with_older f st)) with (with_older f (on_core g st))
    end.
    + apply H2. eapply agrees_from; [|exact Hf].
      apply after_keeps. intros c.
      match goal with |- context [subscribe ?q ?r ?c'] =>
        destruct (subscribe_keeps q r c') as [W A]
      end.
      split; [rewrite W|rewrite A]; reflexivity.
    + unfold with_older, on_core; simpl.
      match goal with |- context [alloc ?n (set_world ?h ?c)] =>
        change (alloc n (set_world h c)) with (set_world h (alloc n c))
      end.
      rewrite subscribe_commutes. reflexivity.
  - match goal with |- _ = with_older f (exec (?k ?x) ?tg ?s2) =>
      apply (H0 x tg s2); exact Hf end.
  - match goal with |- _ = with_older f (exec ?k ?tg ?s2) =>
      apply (IHt tg s2); exact Hf end.
  - match goal with |- _ = with_older f (exec ?k ?tg ?s2) =>
      apply (IHt tg s2); exact Hf end.
  - match goal with |- _ = with_older f (exec ?k ?tg ?s2) =>
      apply (IHt tg s2); exact Hf end.
  - match goal with |- _ = with_older f (exec (?k ?x) ?tg ?s2) =>
      apply (H0 x tg s2); exact Hf end.
  - set (s1 := on_core (set_asked (fun l => l ++ [(a, b)])) st) in *.
    assert (A1 : after st s1) by (split; simpl; [reflexivity|eexists; reflexivity]).
    pose proof (exec_after (k (older (world (core st)) (List.length (asked (core st))) a b))
                  tgt s1) as A2.
    assert (E : f (List.length (asked (core st))) a b
                = older (world (core st)) (List.length (asked (core st))) a b).
    { apply Hf. destruct A2 as [_ [l A2]]. rewrite A2. simpl.
      rewrite <- app_assoc. apply list_lookup_middle. reflexivity. }
    rewrite E.
    match goal with |- _ = with_older f (exec (?k ?x) ?tg ?s2) =>
      apply (H0 x tg s2) end.
    exact (agrees_from f st s1 _ A1 Hf).
  - match goal with |- _ = with_older f (exec (?k ?x) ?tg ?s2) =>
      apply (H0 x tg s2); exact Hf end.
  - destruct (timestring (world (core st)) s).
    + match goal with |- _ = with_older f (exec (?k ?x) ?tg ?s2) =>
        apply (H0 x tg s2); exact Hf end.
    + match goal with |- _ = with_older f (exec (?k ?x) ?tg ?s2) =>
        apply (H1 x tg s2); exact Hf end.
  - match goal with |- _ = with_older f (exec ?k ?tg ?s2) =>
      apply (IHt tg s2); exact Hf end.
  - match goal with |- _ = with_older f (exec (?k ?x) ?tg ?s2) =>
      apply (H0 x tg s2); exact Hf end.
  - match goal with |- _ = with_older f (exec (?k ?x) ?tg ?s2) =>
      apply (H0 x tg s2); exact Hf end.
  - match goal with |- _ = with_older f (exec ?k ?tg ?s2) =>
      apply (IHt tg s2); exact Hf end.
  - match goal with |- _ = with_older f (exec (?k ?x) ?tg ?s2) =>
      apply (H0 x tg s2); exact Hf end.
  - match goal with |- _ = with_older f (exec (?k ?x) ?tg ?s2) =>
      apply (H0 x tg s2); exact Hf end.
  - match goal with |- _ = with_older f (exec (?k ?x) ?tg ?s2) =>
      apply (H0 x tg s2); exact Hf end.
  - match goal with |- _ = with_older f (exec ?k ?tg ?s2) =>
      apply (IHt2 tg s2); exact Hf end.
Qed.

Lemma run_macro_older f m (s : State St) :
  agrees f s (run_macro m s) -> run_macro m (with_older f s) = with_older f (run_macro m s).
Proof.
  intros Hf. destruct m; simpl in *.
  - destruct (read_fault _ _); [apply with_older_core, reject_commutes|].
    destruct (file_read _ _);
      [apply with_older_core, settle_commutes|apply with_older_core, reject_commutes].
  - destruct (write_fault _ _); [apply with_older_core, reject_commutes|].
    apply (with_older_core f _ (on_store (file_write file content) s)), settle_commutes.
  - destruct (file_read _ _); [|apply with_older_core, reject_commutes].
    apply (with_older_core f _ (on_store (file_unlink file) s)), settle_commutes.
  - apply (exec_older f body _ (on_core (alloc origin) s)). exact Hf.
Qed.

Lemma step_older f (s s' : State St) :
  step s = Some s' -> agrees f s s' -> step (with_older f s) = Some (with_older f s').
Proof.
  unfold step; simpl.
  destruct (micro (core s)) as [|[t tgt] rest].
  - destruct (macro (core s)) as [|m rest]; [discriminate|].
    intros [= <-] Hf. f_equal.
    apply (run_macro_older f m (on_core (set_macro (fun _ => rest)) s)). exact Hf.
  - intros [= <-] Hf. f_equal.
    apply (exec_older f t tgt (on_core (set_micro (fun _ => rest)) s)). exact Hf.
Qed.

Lemma step_older_none f (s : State St) : step s = None -> step (with_older f s) = None.
Proof.
  unfold step; simpl.
  destruct (micro (core s)) as [|[t tgt] rest]; [|discriminate].
  destruct (macro (core s)); [reflexivity|discriminate].
Qed.

Lemma run_older f n :
  forall s : State St, agrees f s (run n s) -> run n (with_older f s) = with_older f (run n s).
Proof.
  induction n as [|n IH]; intros s Hf; simpl in *; [reflexivity|].
  destruct (step s) as [s'|] eqn:E.
  - pose proof (step_after _ _ E) as A1. pose proof (run_after n s') as A2.
    rewrite (step_older f s s' E).
    + apply IH. exact (agrees_from f s s' _ A1 Hf).
    + exact (agrees_before f s s' _ A2 A1 Hf).
  - rewrite (step_older_none f s E). reflexivity.
Qed.

Lemma call_older f t (s : State St) :
  agrees f s (call t s) -> call t (with_older f s) = with_older f (call t s).
Proof.
  intros Hf. unfold call.
  apply (exec_older f t _ (on_core (set_promises (fun tbl => tbl ++ [[Pending []]])) s)).
  exact Hf.
Qed.

Lemma call_after t (s : State St) : after s (call t s).
Proof.
  unfold call. eapply after_trans; [|apply exec_after].
  split; simpl; [reflexivity|exists []; symmetry; apply app_nil_r].
Qed.

End Clock.


(** ** The methods of a cache touch the key they are given *)

Ltac only_head :=
  match goal with
  | |- only ?pk ?t => let t' := eval hnf in t in change (only pk t')
  end.

Ltac only_tac :=
  repeat first
    [ assumption
    | exact I
    | intro
    | split
    | only_head;
      first
        [ constructor
        | match goal with
          | |- only _ (match ?x with _ => _ end) => destruct x
          end ] ].

Section MethodsOnly.

Variable this : Cache.
Variable key : string.

Let pk := BaseCache._key this key.

Lemma only_del : only pk (BaseCache.del this (One key)).
Proof. subst pk. only_tac. Qed.

Lemma only_markStale : only pk (BaseCache.markStale this (One key)).
Proof. subst pk. only_tac. Qed.

Lemma only_get dflt opts : only pk (BaseCache.get this key dflt opts).
Proof. subst pk. only_tac. Qed.

Lemma only_set value opts ctx :
  input_only pk key value -> only pk (BaseCache.set this key value opts ctx).
Proof. subst pk. intros Hv. destruct value as [v|[name f|name body]]; simpl in Hv. all: only_tac. Qed.

Lemma only_getOrSet value opts :
  input_only pk key value -> only pk (BaseCache.getOrSet this key value opts).
Proof. subst pk. intros Hv. destruct value as [v|[name f|name body]]; simpl in Hv. all: only_tac. Qed.

End MethodsOnly.


(** ** Scenarios seen through one key, and under another clock *)

Section Scenarios.

Variable pk : string.

Lemma act_ok {St : Type} `{Store St} a (s : State St) :
  action_only pk a -> ok pk (core s) -> ok pk (core (act a s)).
Proof.
  destruct a; simpl; intros Ha Hs; [apply call_ok|apply run_ok]; assumption.
Qed.

Lemma play_ok {St : Type} `{Store St} acts :
  Forall (action_only pk) acts ->
  forall s : State St, ok pk (core s) -> ok pk (core (play acts s)).
Proof.
  induction 1 as [|a acts Ha _ IH]; intros s Hs; simpl; [exact Hs|].
  apply IH, act_ok; assumption.
Qed.

Lemma act_view a s :
  action_only pk a -> ok pk (core s) -> view pk (act a s) = act a (view pk s).
Proof.
  destruct a; simpl; intros Ha Hs; [apply call_view|apply run_view]; assumption.
Qed.

Lemma play_view acts :
  Forall (action_only pk) acts ->
  forall s, ok pk (core s) -> view pk (play acts s) = play acts (view pk s).
Proof.
  induction 1 as [|a acts Ha _ IH]; intros s Hs; simpl; [reflexivity|].
  rewrite IH by (apply act_ok; assumption).
  rewrite act_view by assumption. reflexivity.
Qed.

(** A scenario on a fresh process, seen through [pk]. *)
Lemma fresh_view acts w fs :
  Forall (action_only pk) acts ->
  view pk (play acts (init w (disk fs))) = play acts (init w (slots_init (fs !! pk))).
Proof.
  intros Ha. rewrite play_view; [|exact Ha|apply init_ok].
  unfold view, slots_of; simpl. rewrite !lookup_empty. reflexivity.
Qed.

End Scenarios.

Section ScenarioClock.

Context {St : Type} `{Store St}.

Lemma act_after a (s : State St) : after s (act a s).
Proof. destruct a; simpl; [apply call_after|apply run_after]. Qed.

Lemma play_after acts : forall s : State St, after s (play acts s).
Proof.
  induction acts as [|a acts IH]; intros s; simpl; [apply after_refl|].
  eapply after_trans; [apply act_after|apply IH].
Qed.

Lemma act_older f a (s : State St) :
  agrees f s (act a s) -> act a (with_older f s) = with_older f (act a s).
Proof. destruct a; simpl; [apply call_older|apply run_older]. Qed.

Lemma play_older f acts :
  forall s : State St,
    agrees f s (play acts s) -> play acts (with_older f s) = with_older f (play acts s).
Proof.
  induction acts as [|a acts IH]; intros s Hf; simpl in *; [reflexivity|].
  pose proof (act_after a s) as A1. pose proof (play_after acts (act a s)) as A2.
  rewrite act_older.
  - apply IH. exact (agrees_from f s _ _ A1 Hf).
  - exact (agrees_before f s _ _ A2 A1 Hf).
Qed.

End ScenarioClock.

(** What can be read off a state is read off its view. *)
Lemma outcome_view pk p (s : State Disk) : outcome p s = outcome p (view pk s).
Proof. reflexivity. Qed.

Lemma quiescent_view pk (s : State Disk) : quiescent s = quiescent (view pk s).
Proof. reflexivity. Qed.

Lemma core_view pk (s : State Disk) : core s = core (view pk s).
Proof. reflexivity. Qed.

Lemma files_view pk (s : State Disk) :
  files (store s) !! pk = slot_file (store (view pk s)).
Proof. reflexivity. Qed.

Lemma maps_view pk m (s : State Disk) :
  maps (store s) m !! pk = slot m (store (view pk s)).
Proof. destruct m; reflexivity. Qed.

(** ** Running a scenario under a scripted clock *)

Lemma answers_match_lookup f g qs :
  forall i0, answers_match f g i0 qs ->
  forall i a b, qs !! i = Some (a, b) -> f (i0 + i)%nat a b = g (i0 + i)%nat a b.
Proof.
  induction qs as [|[a0 b0] qs IH]; intros i0 Hm i a b Hi; [discriminate Hi|].
  destruct Hm as [H0 Hm]. destruct i as [|i]; simpl in Hi.
  - injection Hi as <- <-. rewrite Nat.add_0_r. exact H0.
  - rewrite <- Nat.add_succ_comm. apply (IH (S i0) Hm i a b Hi).
Qed.

Lemma agrees_of_answers {St : Type} f (s s' : State St) :
  answers_match f (older (world (core s))) 0 (asked (core s')) -> agrees f s s'.
Proof.
  intros Hm i a b Hi. apply (answers_match_lookup _ _ _ 0%nat Hm i a b Hi).
Qed.

Lemma init_rescript {St : Type} f w (st : St) :
  init w st = with_older (older w) (init (rescript f w) st).
Proof. destruct w; reflexivity. Qed.

(** A scenario may be run under a scripted clock, provided the real clock
    answers the questions that were asked as the script does. *)
Lemma play_rescript {St : Type} `{Store St} f acts w (st : St) :
  answers_match (older w) f 0 (asked (core (play acts (init (rescript f w) st)))) ->
  play acts (init w st) = with_older (older w) (play acts (init (rescript f w) st)).
Proof.
  intros Hm. rewrite (init_rescript f w st). apply play_older.
  apply agrees_of_answers. exact Hm.
Qed.

Lemma answers_match_eq f g i qs qs' :
  qs = qs' -> answers_match f g i qs' -> answers_match f g i qs.
Proof. intros ->. auto. Qed.

Ltac actions_only :=
  repeat first
    [ apply Forall_nil_2
    | apply Forall_cons_2
    | exact I
    | apply only_set | apply only_getOrSet | apply only_get
    | apply only_del | apply only_markStale
    | progress simpl
    | solve [only_tac] ].

(** Moves a goal about a scenario on a fresh disk to the view through [pk]. *)
Ltac through pk :=
  rewrite ?(outcome_view pk), ?(quiescent_view pk), ?(core_view pk), ?(files_view pk),
    ?(maps_view pk);
  rewrite !(fresh_view pk) by actions_only.

(** The real clock agrees with the script on the questions of the run. *)
Ltac clock_agrees :=
  match goal with
  | |- answers_match ?f ?g ?i ?qs =>
      let qs' := eval vm_compute in qs in
      apply (answers_match_eq f g i qs qs'); [vm_compute; reflexivity|]
  end;
  cbn [answers_match]; unfold scripted, calm, failing_writes, clock, lt_minus;
  cbn [older to_num list_lookup default];
  repeat split; first [apply Z.ltb_lt; lia | apply Z.ltb_ge; lia | reflexivity].

(** Runs the scenarios of the goal under the script [answers]. *)
Ltac under answers :=
  rewrite (play_rescript (scripted answers)) by clock_agrees.

(** Tries the scripts of at most four answers. *)
Ltac under_some :=
  first
    [ under (@nil bool)
    | under [true]
    | under [false; true]
    | under [true; true]
    | under [false; false; true]
    | under [false; true; true]
    | under [true; false; true]
    | under [true; true; true]
    | under [false; false; false; true]
    | under [false; false; true; true]
    | under [false; true; false; true]
    | under [false; true; true; true]
    | under [true; false; false; true]
    | under [true; false; true; true]
    | under [true; true; false; true]
    | under [true; true; true; true] ].

(** ** A loop at rest stays at rest *)

Section Rest.

Context {St : Type} `{Store St}.



Lemma run_add m k : forall s : State St, run (m + k) s = run k (run m s).
Proof.
  induction m as [|m IH]; intros s; simpl; [reflexivity|].
  destruct (step s) as [s'|] eqn:E; [apply IH|].
  destruct k; simpl; [reflexivity|]. rewrite E. reflexivity.
Qed.



End Rest.


(** * Properties stated by the specification *)

(** ** The codec thresholds *)

Lemma byte_is_spec o b : byte_is o b = true <-> o = Some b.
Proof.
  destruct o as [x|]; simpl.
  - split.
    + intros E. f_equal. apply Byte.byte_dec_bl. exact E.
    + intros [= ->]. apply Byte.byte_dec_lb. reflexivity.
  - split; [discriminate|discriminate].
Qed.

Lemma decompressMaybe_long buffer :
  (64 <= List.length buffer)%nat ->
  (take 4 buffer = zstd_magic /\ decompressMaybe buffer = ZstdDecompress buffer)
  \/ (take 4 buffer <> zstd_magic /\ decompressMaybe buffer = Raw buffer).
Proof.
  intros Hlen. unfold decompressMaybe.
  destruct (Nat.ltb_spec (List.length buffer) 64) as [Hlt|_]; [lia|].
  destruct buffer as [|b0 [|b1 [|b2 [|b3 rest]]]]; simpl in Hlen; try lia.
  unfold Buffer.at_, zstd_magic. simpl.
  destruct (Byte.eqb b3 xfd) eqn:E3; simpl.
  2: { right. split; [|reflexivity]. intros [= -> -> -> ->]. discriminate E3. }
  destruct (Byte.eqb b2 x2f) eqn:E2; simpl.
  2: { right. split; [|reflexivity]. intros [= -> -> -> ->]. discriminate E2. }
  destruct (Byte.eqb b1 xb5) eqn:E1; simpl.
  2: { right. split; [|reflexivity]. intros [= -> -> -> ->]. discriminate E1. }
  destruct (Byte.eqb b0 x28) eqn:E0; simpl.
  2: { right. split; [|reflexivity]. intros [= -> -> -> ->]. discriminate E0. }
  apply Byte.byte_dec_bl in E0, E1, E2, E3. subst. left. split; reflexivity.
Qed.

Lemma compressMaybe_cases buffer :
  ((List.length buffer < 256)%nat /\ compressMaybe buffer = Raw buffer)
  \/ ((256 <= List.length buffer)%nat /\ compressMaybe buffer = ZstdCompress buffer 3).
Proof.
  unfold compressMaybe.
  destruct (Nat.ltb_spec (List.length buffer) 256); [left|right]; split; auto.
Qed.

(** C7. [FileCacheBackend.set] compresses the serialised envelope exactly when
    it has at least 256 bytes (and then at level 3, the buffer being handed
    over unchanged). [decompressMaybe] returns a buffer of fewer than 64 bytes
    as it is; a buffer of 64 bytes or more is decompressed exactly when its
    first four bytes are the zstd magic number, and is returned as it is
    otherwise. *)
Theorem compression_thresholds (t c v : option json) (buffer : list byte) :
  (is_compress (set_payload t c v) = true
   <-> (256 <= List.length (envelope_buffer t c v))%nat)
  /\ set_payload t c v
     = (if is_compress (set_payload t c v)
        then ZstdCompress (envelope_buffer t c v) 3
        else Raw (envelope_buffer t c v))
  /\ ((List.length buffer < 64)%nat -> decompressMaybe buffer = Raw buffer)
  /\ ((64 <= List.length buffer)%nat ->
      (decompressMaybe buffer = ZstdDecompress buffer <-> take 4 buffer = zstd_magic)
      /\ (decompressMaybe buffer = Raw buffer <-> take 4 buffer <> zstd_magic)).
Proof.
  split; [|split; [|split]].
  - unfold set_payload.
    destruct (compressMaybe_cases (envelope_buffer t c v)) as [[L ->]|[L ->]];
      cbn [is_compress]; split; intros; try discriminate; try lia; reflexivity.
  - unfold set_payload.
    destruct (compressMaybe_cases (envelope_buffer t c v)) as [[L ->]|[L ->]];
      reflexivity.
  - intros Hlen. unfold decompressMaybe.
    destruct (Nat.ltb_spec (List.length buffer) 64); [reflexivity|lia].
  - intros Hlen.
    destruct (decompressMaybe_long buffer Hlen) as [[M D]|[N R]]; rewrite ?D, ?R.
    + repeat split; intros; try congruence; try discriminate; try contradiction.
    + repeat split; intros; try congruence; try discriminate; try contradiction.
Qed.

Lemma envelope_buffer_head t c v :
  exists rest, envelope_buffer t c v = x7b :: rest.
Proof.
  unfold envelope_buffer, envelope, Json.object_of_props. simpl Json.stringify.
  eexists. reflexivity.
Qed.

(** C10. The buffer that [FileCacheBackend.set] serialises begins with the
    byte 0x7B, which is not the first byte 0x28 of the zstd magic number;
    [decompressMaybe] therefore never sends it to [decompress], and a payload
    that was written uncompressed (fewer than 256 bytes) is read back as the
    very bytes that were written. *)
Theorem own_raw_payload_is_read_raw (t c v : option json) :
  Buffer.at_ (envelope_buffer t c v) 0%nat = Some x7b
  /\ Buffer.at_ zstd_magic 0%nat = Some x28
  /\ x7b <> x28
  /\ decompressMaybe (envelope_buffer t c v) = Raw (envelope_buffer t c v)
  /\ ((List.length (envelope_buffer t c v) < 256)%nat ->
      set_payload t c v = Raw (envelope_buffer t c v)
      /\ is_decompress (decompressMaybe (envelope_buffer t c v)) = false).
Proof.
  destruct (envelope_buffer_head t c v) as [rest E].
  assert (D : decompressMaybe (envelope_buffer t c v) = Raw (envelope_buffer t c v)).
  { rewrite E. unfold decompressMaybe.
    destruct (List.length (x7b :: rest) <? 64)%nat; [reflexivity|].
    unfold Buffer.at_. simpl (byte_is (list_lookup 0%nat _) _).
    rewrite andb_false_r. reflexivity. }
  split; [|split; [|split; [|split]]].
  - rewrite E. reflexivity.
  - reflexivity.
  - discriminate.
  - exact D.
  - intros Hlen. split.
    + unfold set_payload, compressMaybe.
      destruct (Nat.ltb_spec (List.length (envelope_buffer t c v)) 256);
        [reflexivity|lia].
    + rewrite D. reflexivity.
Qed.

(** ** Key to path *)

Section KeyToPath.

Variable sha1_base64url : string -> string.

Lemma string_length_append (s1 s2 : string) :
  String.length (s1 ++ s2) = (String.length s1 + String.length s2)%nat.
Proof. induction s1 as [|a s1 IH]; simpl; [reflexivity|]. rewrite IH. reflexivity. Qed.

Lemma split_aux_not_nil sep s : forall skip cur, split_aux sep skip cur s <> [].
Proof.
  induction s as [|a s IH]; intros skip cur; cbn [split_aux]; [discriminate|].
  destruct skip as [|n]; [|apply IH].
  destruct (String.prefix sep (String a s)); [discriminate|apply IH].
Qed.

Lemma prefix_separator_other a s :
  Ascii.eqb a "011" = false -> String.prefix KEY_SEPARATOR (String a s) = false.
Proof.
  intros E. unfold KEY_SEPARATOR. cbn [String.prefix].
  destruct (ascii_dec "011" a) as [<-|_]; [|reflexivity].
  rewrite Ascii.eqb_refl in E. discriminate E.
Qed.

Lemma split_aux_segment rest seg :
  forall cur,
    no_vtab seg = true ->
    split_aux KEY_SEPARATOR 0 cur (seg ++ KEY_SEPARATOR ++ rest)
    = string_of_list_ascii (rev cur ++ list_ascii_of_string seg)
        :: split KEY_SEPARATOR rest.
Proof.
  induction seg as [|a seg IH]; intros cur Hseg.
  - cbn [list_ascii_of_string]. rewrite app_nil_r.
    change ("" ++ KEY_SEPARATOR ++ rest)%string
      with (String "011" (String slash rest)).
    cbn [split_aux].
    change (String.prefix KEY_SEPARATOR (String "011" (String slash rest)))
      with (String.prefix "" rest).
    destruct rest; reflexivity.
  - simpl in Hseg. apply andb_true_iff in Hseg as [Ha Hseg].
    apply negb_true_iff in Ha.
    change (String a seg ++ KEY_SEPARATOR ++ rest)%string
      with (String a (seg ++ KEY_SEPARATOR ++ rest)%string).
    cbn [split_aux]. rewrite (prefix_separator_other _ _ Ha).
    rewrite (IH (a :: cur) Hseg). simpl. rewrite <- app_assoc. reflexivity.
Qed.

Lemma map_last_cons f p l : l <> [] -> map_last f (p :: l) = p :: map_last f l.
Proof. destruct l; [contradiction|reflexivity]. Qed.

Lemma concat_cons sep p l :
  l <> [] -> String.concat sep (p :: l) = (p ++ sep ++ String.concat sep l)%string.
Proof. destruct l; [contradiction|reflexivity]. Qed.

Lemma map_last_not_nil f l : l <> [] -> map_last f l <> [].
Proof. destruct l as [|p [|q l]]; [contradiction|discriminate|discriminate]. Qed.

(** Whatever the length of the key, [FileCacheBackend.keyToPath] keeps a
    segment that precedes a separator as it is. *)
Lemma keyToPath_keeps_segment CACHE_DIR seg rest :
  no_vtab seg = true ->
  keyToPath sha1_base64url CACHE_DIR (seg ++ KEY_SEPARATOR ++ rest)
  = (CACHE_DIR ++ "/" ++ seg ++ "/"
     ++ String.concat "/"
          (map_last (hash sha1_base64url) (split KEY_SEPARATOR rest)))%string.
Proof.
  intros Hseg. unfold keyToPath, split at 1.
  rewrite (split_aux_segment rest seg [] Hseg). simpl rev. rewrite app_nil_l.
  rewrite string_of_list_ascii_of_string.
  rewrite map_last_cons by apply split_aux_not_nil.
  rewrite concat_cons by (apply map_last_not_nil, split_aux_not_nil).
  reflexivity.
Qed.

(** C8, as amended. A key of more than 2048 code units is hashed as a whole
    by the older encoder [FileCache.backend.keyToPath]: the path is the cache
    directory, a slash and the digest of the key. The encoder of the file
    backend in use, [FileCacheBackend.keyToPath], has no such threshold: a
    segment that precedes a separator is kept as it is, whatever the length
    of the key. *)
Theorem long_key_is_hashed_whole_by_the_older_encoder_only
  (cacheDir key seg rest : string) :
  (2048 < String.length key)%nat ->
  no_vtab seg = true ->
  legacy_keyToPath sha1_base64url cacheDir key
  = (cacheDir ++ "/" ++ sha1_base64url key)%string
  /\ String.length (legacy_keyToPath sha1_base64url cacheDir key)
     = (String.length cacheDir + 1 + String.length (sha1_base64url key))%nat
  /\ keyToPath sha1_base64url cacheDir (seg ++ KEY_SEPARATOR ++ rest)
     = (cacheDir ++ "/" ++ seg ++ "/"
        ++ String.concat "/"
             (map_last (hash sha1_base64url) (split KEY_SEPARATOR rest)))%string.
Proof.
  intros Hlen Hseg.
  assert (E : legacy_keyToPath sha1_base64url cacheDir key
              = (cacheDir ++ "/" ++ sha1_base64url key)%string).
  { unfold legacy_keyToPath, legacy_encode.
    destruct (Nat.ltb_spec 2048 (String.length key)); [reflexivity|lia]. }
  split; [exact E|split].
  - rewrite E, !string_length_append. change (String.length "/") with 1%nat. lia.
  - apply keyToPath_keeps_segment. exact Hseg.
Qed.

End KeyToPath.

Lemma long_key_is_hashed_whole_by_the_older_encoder_only_witness :
  legacy_keyToPath toy_digest "/cache" long_key
  = ("/cache/" ++ toy_digest long_key)%string
  /\ String.length (legacy_keyToPath toy_digest "/cache" long_key)
     = (String.length "/cache" + 1 + String.length (toy_digest long_key))%nat
  /\ keyToPath toy_digest "/cache" (repeat_char "a" 3000 ++ KEY_SEPARATOR ++ "b")
     = ("/cache" ++ "/" ++ repeat_char "a" 3000 ++ "/"
        ++ String.concat "/"
             (map_last (hash toy_digest) (split KEY_SEPARATOR "b")))%string.
Proof.
  apply (long_key_is_hashed_whole_by_the_older_encoder_only toy_digest
           "/cache" long_key (repeat_char "a" 3000) "b").
  - vm_compute. lia.
  - vm_compute. reflexivity.
Defined.

(** C8, as stated, fails for the encoder of the file backend in use: a key of
    3003 code units keeps its segment of 3000 code units in the path, which
    is 3018 code units long and is not the digest of the whole key. *)
Lemma long_key_is_not_hashed_whole :
  (2048 <? String.length long_key)%nat = true
  /\ keyToPath toy_digest "/cache" long_key
     = ("/cache/" ++ repeat_char "a" 3000 ++ "/" ++ hash toy_digest "b")%string
  /\ String.length (keyToPath toy_digest "/cache" long_key) = 3018%nat
  /\ String.eqb (keyToPath toy_digest "/cache" long_key)
       ("/cache/" ++ hash toy_digest long_key) = false
  /\ String.eqb (keyToPath toy_digest "/cache" long_key)
       ("/cache/" ++ toy_digest long_key) = false.
Proof. vm_compute. repeat split. Qed.

(** ** [set] *)

(** C9, as amended. When the value given to [set] is [undefined], nothing is
    written and the stored entry stays as it was, in each of the three ways
    the value can come: given directly, returned by a producer, or as the
    outcome of a pending computation. Given directly or returned by a
    synchronous producer, the attempt is logged and [set] resolves to
    [false]; when it is the outcome of a pending computation (a promise, or
    the promise an [async] producer returns), nothing is logged and [set]
    resolves to [true]. *)
Theorem set_undefined_writes_nothing
  (this : Cache) (key : string) (fs : gmap string json) (t : Z) (name : string)
  (opts : Options) :
  let start := init (calm t) (disk fs) in
  let pk := BaseCache._key this key in
  let direct := play [Call (BaseCache.set this key (IVal VUndef) opts None); Turns 20] start in
  let returned :=
    play [Call (BaseCache.set this key (IFun (returns name VUndef)) opts None); Turns 20]
         start in
  let pending :=
    play [Call (Return VUndef);
          Call (BaseCache.set this key (IVal (VProm (promise_of 0))) opts None);
          Turns 20] start in
  let resolved :=
    play [Call (BaseCache.set this key (IFun (resolves name VUndef)) opts None); Turns 20]
         start in
  (outcome (promise_of 0) direct = Some (Fulfilled VFalse)
   /\ log (core direct) = [[undefined_message this key]]
   /\ files (store direct) !! pk = fs !! pk
   /\ maps (store direct) setting !! pk = None
   /\ quiescent direct = true)
  /\ (outcome (promise_of 0) returned = Some (Fulfilled VFalse)
      /\ log (core returned) = [[undefined_message this key]]
      /\ calls (core returned) = [(name, key)]
      /\ files (store returned) !! pk = fs !! pk
      /\ maps (store returned) setting !! pk = None
      /\ quiescent returned = true)
  /\ (outcome (promise_of 1) pending = Some (Fulfilled VTrue)
      /\ log (core pending) = []
      /\ files (store pending) !! pk = fs !! pk
      /\ maps (store pending) setting !! pk = None
      /\ quiescent pending = true)
  /\ (outcome (promise_of 0) resolved = Some (Fulfilled VTrue)
      /\ log (core resolved) = []
      /\ calls (core resolved) = [(name, key)]
      /\ files (store resolved) !! pk = fs !! pk
      /\ maps (store resolved) setting !! pk = None
      /\ quiescent resolved = true).
Proof.
  intros start pk direct returned pending resolved.
  subst direct returned pending resolved start pk.
  through (BaseCache._key this key).
  generalize (fs !! BaseCache._key this key). intros o.
  vm_compute. repeat split.
Qed.

(** C9, as stated, fails when the [undefined] value is the outcome of a
    pending computation: [set] resolves to [true] and logs nothing, whether
    the promise is given directly or returned by an [async] producer. *)
Lemma set_promise_of_undefined_reports_success :
  outcome (promise_of 1)
    (play [Call (Return VUndef);
           Call (BaseCache.set api_cache "k" (IVal (VProm (promise_of 0))) no_options None);
           Turns 20] (init (calm 1000) (disk ∅)))
  = Some (Fulfilled VTrue)
  /\ log (core
       (play [Call (Return VUndef);
              Call (BaseCache.set api_cache "k" (IVal (VProm (promise_of 0))) no_options
                      None);
              Turns 20] (init (calm 1000) (disk ∅))))
     = []
  /\ outcome (promise_of 0)
       (play [Call (BaseCache.set api_cache "k" (IFun (resolves "f" VUndef)) no_options
                      None);
              Turns 20] (init (calm 1000) (disk ∅)))
     = Some (Fulfilled VTrue)
  /\ log (core
       (play [Call (BaseCache.set api_cache "k" (IFun (resolves "f" VUndef)) no_options
                      None);
              Turns 20] (init (calm 1000) (disk ∅))))
     = [].
Proof.
  through (BaseCache._key api_cache "k"). vm_compute. repeat split.
Qed.

(** C4, as amended. When resolving the value fails (the producer throws, the
    pending computation rejects, or [process] throws), [set] logs the error,
    deletes the key, clears its entry in [setting] and rejects with that
    error. When the write to the backend fails, [_set] logs the error and
    swallows it: [set] resolves to [true], the key is not deleted and the
    file stays as it was. *)
Theorem set_failure_is_rethrown_unless_the_write_failed
  (this : Cache) (key : string) (fs : gmap string json) (now t : Z) (name : string)
  (e : Val) (v : json) (opts : Options) :
  let pk := BaseCache._key this key in
  let thrown :=
    play [Call (BaseCache.set this key (IFun (throws name e)) opts None); Turns 20]
         (init (calm now) (disk fs)) in
  let rejected :=
    play [Call (BaseCache.set this key (IFun (rejects name e)) opts None); Turns 20]
         (init (calm now) (disk fs)) in
  let processed :=
    play [Call (BaseCache.set this key (IVal (VJson v))
                  (mkOptions (VNum t) VUndef VUndef VUndef VUndef None
                             (Some (fun _ => Raise e)) VUndef) None);
          Turns 20]
         (init (calm now) (disk fs)) in
  let unwritten :=
    play [Call (BaseCache.set this key (IVal (VJson v)) (with_ttl (VNum t)) None);
          Turns 20]
         (init (failing_writes now e) (disk fs)) in
  (outcome (promise_of 0) thrown = Some (Rejected e)
   /\ log (core thrown) = [[failure_message this key; e]]
   /\ files (store thrown) !! pk = None
   /\ maps (store thrown) setting !! pk = None
   /\ quiescent thrown = true)
  /\ (outcome (promise_of 0) rejected = Some (Rejected e)
      /\ log (core rejected) = [[failure_message this key; e]]
      /\ files (store rejected) !! pk = None
      /\ maps (store rejected) setting !! pk = None
      /\ quiescent rejected = true)
  /\ (outcome (promise_of 0) processed = Some (Rejected e)
      /\ log (core processed) = [[failure_message this key; e]]
      /\ files (store processed) !! pk = None
      /\ maps (store processed) setting !! pk = None
      /\ quiescent processed = true)
  /\ (outcome (promise_of 0) unwritten = Some (Fulfilled VTrue)
      /\ log (core unwritten) = [[e]]
      /\ files (store unwritten) !! pk = fs !! pk
      /\ maps (store unwritten) setting !! pk = None
      /\ quiescent unwritten = true).
Proof.
  intros pk thrown rejected processed unwritten.
  subst thrown rejected processed unwritten pk.
  through (BaseCache._key this key).
  destruct (fs !! BaseCache._key this key) as [old|]; destruct now as [|now|now];
    vm_compute; repeat split.
Qed.

(** C4, as stated, fails when the write to the backend fails: [set] resolves
    to [true], and the entry that was stored is still there. *)
Lemma failed_write_is_reported_as_success :
  outcome (promise_of 0)
    (play [Call (BaseCache.set api_cache "k" (IVal (VNum 7)) no_options None); Turns 20]
          (init (failing_writes 1000 (VErr "EIO"))
                (disk {[api_k := plain_entry 5 (JStr "old")]})))
  = Some (Fulfilled VTrue)
  /\ files (store
       (play [Call (BaseCache.set api_cache "k" (IVal (VNum 7)) no_options None); Turns 20]
             (init (failing_writes 1000 (VErr "EIO"))
                   (disk {[api_k := plain_entry 5 (JStr "old")]}))))
     !! api_k
     = Some (plain_entry 5 (JStr "old")).
Proof.
  unfold api_k. through (BaseCache._key api_cache "k").
  rewrite lookup_singleton_eq. vm_compute. repeat split.
Qed.

(** ** The in-flight maps *)

(** C1, at the failing input. When the producer of a [getOrSet] fails (it
    throws, or the promise it returns rejects), the call rejects and the
    entry it put into [getOrSetting] is never removed: the loop comes to rest
    with the rejected promise still in the map, and a later [getOrSet] of the
    key rejects with the old error without calling its own producer. *)
Theorem getOrSet_failure_stays_in_getOrSetting
  (this : Cache) (key : string) (fs : gmap string json) (now : Z)
  (name other : string) (e v : Val) :
  fs !! BaseCache._key this key = None ->
  let pk := BaseCache._key this key in
  let thrown :=
    play [Call (BaseCache.getOrSet this key (IFun (throws name e)) no_options); Turns 30;
          Call (BaseCache.getOrSet this key (IFun (returns other v)) no_options); Turns 30]
         (init (calm now) (disk fs)) in
  let rejected :=
    play [Call (BaseCache.getOrSet this key (IFun (rejects name e)) no_options); Turns 30;
          Call (BaseCache.getOrSet this key (IFun (returns other v)) no_options); Turns 30]
         (init (calm now) (disk fs)) in
  (outcome (promise_of 0) thrown = Some (Rejected e)
   /\ maps (store thrown) getOrSetting !! pk = Some (VProm (0, 1)%nat)
   /\ outcome (0, 1)%nat thrown = Some (Rejected e)
   /\ outcome (promise_of 1) thrown = Some (Rejected e)
   /\ calls (core thrown) = [(name, key)]
   /\ quiescent thrown = true)
  /\ (outcome (promise_of 0) rejected = Some (Rejected e)
      /\ maps (store rejected) getOrSetting !! pk = Some (VProm (0, 1)%nat)
      /\ outcome (0, 1)%nat rejected = Some (Rejected e)
      /\ outcome (promise_of 1) rejected = Some (Rejected e)
      /\ calls (core rejected) = [(name, key)]
      /\ quiescent rejected = true).
Proof.
  intros Hfs pk thrown rejected. subst thrown rejected pk.
  through (BaseCache._key this key). rewrite Hfs.
  vm_compute. repeat split.
Qed.

Lemma getOrSet_failure_stays_in_getOrSetting_witness :
  outcome (promise_of 1)
    (play [Call (BaseCache.getOrSet api_cache "k" (IFun (throws "f" (VErr "boom")))
                   no_options);
           Turns 30;
           Call (BaseCache.getOrSet api_cache "k" (IFun (returns "g" (VNum 7))) no_options);
           Turns 30]
          (init (calm 1000) (disk ∅)))
  = Some (Rejected (VErr "boom")).
Proof.
  pose proof (getOrSet_failure_stays_in_getOrSetting api_cache "k" ∅ 1000 "f" "g"
                (VErr "boom") (VNum 7) (lookup_empty _)) as H.
  cbv zeta in H. destruct H as [[_ [_ [_ [H _]]]] _]. exact H.
Defined.

(** The same happens in [getting]: when [fromJSON] throws, the promise that
    [getStale] put into the map stays there, and a later plain [get] of the
    key rejects with the old error although the entry is intact. *)
Lemma getStale_failure_stays_in_getting
  (this : Cache) (key : string) (fs : gmap string json) (now c : Z) (v d : json)
  (e : Val) :
  fs !! BaseCache._key this key = Some (plain_entry c v) ->
  let pk := BaseCache._key this key in
  let s :=
    play [Call (BaseCache.get this key (VJson d)
                  (mkOptions VUndef VUndef VUndef VUndef VUndef
                             (Some (fun _ => Raise e)) None VUndef));
          Turns 30;
          Call (BaseCache.get this key (VJson d) no_options); Turns 30]
         (init (calm now) (disk fs)) in
  outcome (promise_of 0) s = Some (Rejected e)
  /\ maps (store s) getting !! pk = Some (VProm (0, 5)%nat)
  /\ outcome (0, 5)%nat s = Some (Rejected e)
  /\ outcome (promise_of 1) s = Some (Rejected e)
  /\ files (store s) !! pk = Some (plain_entry c v)
  /\ quiescent s = true.
Proof.
  intros Hfs pk s. subst s pk.
  through (BaseCache._key this key). rewrite Hfs.
  vm_compute. repeat split.
Qed.

(** ** Concurrent [getOrSet] *)

(** C2, at the failing input. Two [getOrSet] calls for a key without entry
    are made back to back with the option [process: x => x + 1] and a
    producer that resolves to the number [n]. The producer is entered once
    and [n] is stored, but the callers do not get the same value: the first
    resolves to [n + 1], the second, which waits on the promise in
    [getOrSetting], has [process] applied to that result again and resolves
    to [n + 2]. *)
Theorem second_caller_gets_the_value_processed_twice
  (this : Cache) (key : string) (fs : gmap string json) (now n : Z) (name : string) :
  fs !! BaseCache._key this key = None ->
  let pk := BaseCache._key this key in
  let s :=
    play [Call (BaseCache.getOrSet this key (IFun (resolves name (VNum n)))
                  (with_process increment));
          Call (BaseCache.getOrSet this key (IFun (resolves name (VNum n)))
                  (with_process increment));
          Turns 40]
         (init (calm now) (disk fs)) in
  calls (core s) = [(name, key)]
  /\ outcome (promise_of 0) s = Some (Fulfilled (VNum (n + 1)))
  /\ outcome (promise_of 1) s = Some (Fulfilled (VNum (n + 1 + 1)))
  /\ files (store s) !! pk = Some (plain_entry now (JNum n))
  /\ maps (store s) getOrSetting !! pk = None
  /\ quiescent s = true.
Proof.
  intros Hfs pk s. subst s pk.
  through (BaseCache._key this key). rewrite Hfs.
  destruct now as [|now|now]; vm_compute; repeat split.
Qed.

Lemma second_caller_gets_the_value_processed_twice_witness :
  outcome (promise_of 0)
    (play [Call (BaseCache.getOrSet api_cache "k" (IFun (resolves "f" (VNum 7)))
                   (with_process increment));
           Call (BaseCache.getOrSet api_cache "k" (IFun (resolves "f" (VNum 7)))
                   (with_process increment));
           Turns 40]
          (init (calm 1000) (disk ∅)))
  = Some (Fulfilled (VNum 8))
  /\ outcome (promise_of 1)
       (play [Call (BaseCache.getOrSet api_cache "k" (IFun (resolves "f" (VNum 7)))
                      (with_process increment));
              Call (BaseCache.getOrSet api_cache "k" (IFun (resolves "f" (VNum 7)))
                      (with_process increment));
              Turns 40]
             (init (calm 1000) (disk ∅)))
     = Some (Fulfilled (VNum 9)).
Proof.
  pose proof (second_caller_gets_the_value_processed_twice api_cache "k" ∅ 1000 7 "f"
                (lookup_empty _)) as H.
  cbv zeta in H. destruct H as [_ [H0 [H1 _]]]. split; [exact H0|exact H1].
Defined.

(** ** [markStale] *)

(** C3, at the failing input. For an entry that was set with a TTL [t],
    [markStale] rewrites the creation time to 0 and keeps the value and the
    TTL; the entry is then past its TTL. A plain [get], which returned the
    value before, now resolves to the default and deletes the file, and a
    stale-while-revalidate [getOrSet] does not see a stale value: it waits
    for the producer and resolves to the new value. *)
Theorem markStale_expires_an_entry_with_ttl
  (this : Cache) (key : string) (fs : gmap string json) (now t st : Z) (v d w : json)
  (name : string) :
  0 < t -> t < now -> 0 < st ->
  let pk := BaseCache._key this key in
  let start := init (calm now) (disk fs) in
  let written :=
    [Call (BaseCache.set this key (IVal (VJson v)) (with_ttl (VNum t)) None); Turns 20] in
  let marked := written ++ [Call (BaseCache.markStale this (One key)); Turns 20] in
  let before :=
    play (written ++ [Call (BaseCache.get this key (VJson d) no_options); Turns 20]) start in
  let touched := play marked start in
  let after_get :=
    play (marked ++ [Call (BaseCache.get this key (VJson d) no_options); Turns 20]) start in
  let early :=
    play (marked
          ++ [Call (BaseCache.getOrSet this key (IFun (resolves name (VJson w)))
                      (swr (VNum t) (VNum st)));
              Turns 12]) start in
  let late :=
    play (marked
          ++ [Call (BaseCache.getOrSet this key (IFun (resolves name (VJson w)))
                      (swr (VNum t) (VNum st)));
              Turns 40]) start in
  outcome (promise_of 1) before = Some (Fulfilled (VJson v))
  /\ files (store touched) !! pk
     = Some (envelope (Some (JNum t)) (Some (JNum 0)) (Some v))
  /\ (outcome (promise_of 2) after_get = Some (Fulfilled (VJson d))
      /\ files (store after_get) !! pk = None
      /\ quiescent after_get = true)
  /\ (outcome (promise_of 2) early = Some (Pending [])
      /\ calls (core early) = [(name, key)])
  /\ (outcome (promise_of 2) late = Some (Fulfilled (VJson w))
      /\ calls (core late) = [(name, key)]
      /\ files (store late) !! pk
         = Some (envelope (Some (JNum t)) (Some (JNum now)) (Some w))
      /\ quiescent late = true).
Proof.
  intros Ht Hnow Hst pk start written marked before touched after_get early late.
  subst before touched after_get early late marked written start pk.
  cbn [app].
  through (BaseCache._key this key).
  generalize (fs !! BaseCache._key this key). intros o.
  destruct t as [|t|t]; try lia. destruct now as [|now|now]; try lia.
  destruct st as [|st|st]; try lia.
  split; [|split; [|split; [|split]]].
  - under [false]. vm_compute. reflexivity.
  - vm_compute. reflexivity.
  - under [true]. vm_compute. repeat split.
  - under [true]. vm_compute. repeat split.
  - under [true]. vm_compute. repeat split.
Qed.

Lemma markStale_expires_an_entry_with_ttl_witness :
  outcome (promise_of 2)
    (play ([Call (BaseCache.set api_cache "k" (IVal (VJson (JStr "v")))
                    (with_ttl (VNum 500)) None);
            Turns 20]
           ++ [Call (BaseCache.markStale api_cache (One "k")); Turns 20]
           ++ [Call (BaseCache.get api_cache "k" (VJson (JStr "d")) no_options); Turns 20])
          (init (calm 1000) (disk ∅)))
  = Some (Fulfilled (VJson (JStr "d"))).
Proof.
  pose proof (markStale_expires_an_entry_with_ttl api_cache "k" ∅ 1000 500 100
                (JStr "v") (JStr "d") (JStr "w") "f") as H.
  cbv zeta in H. rewrite <- !app_assoc in H.
  assert (H1 : 0 < 500) by lia. assert (H2 : 500 < 1000) by lia.
  assert (H3 : 0 < 100) by lia.
  destruct (H H1 H2 H3) as [_ [_ [[H' _] _]]]. exact H'.
Defined.

(** ** Stale-while-revalidate *)

(** C5, as amended. With a [staleTTL], [requireResult: false], neither
    [freshResult] nor [forceUpdate] set, no bypass and no entry for the key,
    [getOrSet] resolves to [options.default] before the producer is entered.
    The producer runs afterwards, once; its result is stored and the entry in
    [getOrSettingStale] is removed. When the producer fails, the caller still
    gets the default, the error is logged by [set] and nothing is stored. *)
Theorem absent_entry_is_generated_in_the_background
  (this : Cache) (key : string) (fs : gmap string json) (now st : Z) (t : option Z)
  (d : option json) (v : json) (e : Val) (name : string) :
  fs !! BaseCache._key this key = None -> 0 < st -> 0 < now ->
  let pk := BaseCache._key this key in
  let opts := background_options t st d in
  let start := init (calm now) (disk fs) in
  let early :=
    play [Call (BaseCache.getOrSet this key (IFun (resolves name (VJson v))) opts);
          Turns 7] start in
  let late :=
    play [Call (BaseCache.getOrSet this key (IFun (resolves name (VJson v))) opts);
          Turns 30] start in
  let failed :=
    play [Call (BaseCache.getOrSet this key (IFun (rejects name e)) opts); Turns 30]
         start in
  (outcome (promise_of 0) early = Some (Fulfilled (of_json d))
   /\ calls (core early) = []
   /\ maps (store early) getOrSettingStale !! pk = Some VTrue)
  /\ (outcome (promise_of 0) late = Some (Fulfilled (of_json d))
      /\ calls (core late) = [(name, key)]
      /\ files (store late) !! pk
         = Some (envelope (JNum <$> t) (Some (JNum now)) (Some v))
      /\ maps (store late) getOrSettingStale !! pk = None
      /\ quiescent late = true)
  /\ (outcome (promise_of 0) failed = Some (Fulfilled (of_json d))
      /\ calls (core failed) = [(name, key)]
      /\ log (core failed) = [[failure_message this key; e]]
      /\ files (store failed) !! pk = None
      /\ maps (store failed) getOrSettingStale !! pk = None
      /\ quiescent failed = true).
Proof.
  intros Hfs Hst Hnow pk opts start early late failed.
  subst early late failed start opts pk.
  through (BaseCache._key this key). rewrite Hfs.
  destruct st as [|st|st]; try lia. destruct now as [|now|now]; try lia.
  destruct t as [t|]; destruct d as [d|]; vm_compute; repeat split.
Qed.

Lemma absent_entry_is_generated_in_the_background_witness :
  outcome (promise_of 0)
    (play [Call (BaseCache.getOrSet api_cache "k" (IFun (resolves "f" (VJson (JNum 7))))
                   (background_options None 100 (Some (JStr "d"))));
           Turns 7]
          (init (calm 1000) (disk ∅)))
  = Some (Fulfilled (VJson (JStr "d"))).
Proof.
  pose proof (absent_entry_is_generated_in_the_background api_cache "k" ∅ 1000 100 None
                (Some (JStr "d")) (JNum 7) (VErr "boom") "f" (lookup_empty _)) as H.
  cbv zeta in H.
  assert (H1 : 0 < 100) by lia. assert (H2 : 0 < 1000) by lia.
  destruct (H H1 H2) as [[H' _] _]. exact H'.
Defined.

(** C5, as stated, fails when [freshResult] is set: the value is generated in
    the foreground and the call resolves to it, not to the default. *)
Lemma freshResult_generates_in_the_foreground :
  outcome (promise_of 0)
    (play [Call (BaseCache.getOrSet api_cache "k" (IFun (resolves "f" (VJson (JNum 7))))
                   (mkOptions VUndef (VNum 100) VFalse VTrue VUndef None None
                              (VJson (JStr "d"))));
           Turns 30]
          (init (calm 1000) (disk ∅)))
  = Some (Fulfilled (VNum 7))
  /\ outcome (promise_of 0)
       (play [Call (BaseCache.getOrSet api_cache "k" (IFun (resolves "f" (VJson (JNum 7))))
                      (mkOptions VUndef (VNum 100) VFalse VTrue VUndef None None
                                 (VJson (JStr "d"))));
              Turns 7]
             (init (calm 1000) (disk ∅)))
     = Some (Pending []).
Proof.
  through (BaseCache._key api_cache "k"). vm_compute. repeat split.
Qed.





(** * Further properties of the coordinator *)

(** ** Reads and writes *)





(** X3. Expiry on read. For a stored entry with a TTL [t > 0] created at
    [c], a [get] at time [now] resolves to the stored value and leaves the
    file alone when [now - t <= c]; when [c < now - t] it resolves to the
    default and the file is deleted. An entry with TTL 0 never expires. *)
Theorem get_honours_the_ttl
  (this : Cache) (key : string) (fs : gmap string json) (now c t : Z) (v d : json) :
  fs !! BaseCache._key this key = Some (entry (Some t) c v) -> 0 <= t ->
  let pk := BaseCache._key this key in
  let s :=
    play [Call (BaseCache.get this key (VJson d) no_options); Turns 30]
         (init (calm now) (disk fs)) in
  (t = 0 \/ now - t <= c ->
   outcome (promise_of 0) s = Some (Fulfilled (VJson v))
   /\ files (store s) !! pk = Some (entry (Some t) c v))
  /\ (0 < t /\ c < now - t ->
      outcome (promise_of 0) s = Some (Fulfilled (VJson d))
      /\ files (store s) !! pk = None)
  /\ (forall m, maps (store s) m !! pk = None)
  /\ log (core s) = []
  /\ quiescent s = true.
Proof.
  intros Hfs Ht pk s. subst s pk.
  destruct t as [|t|t]; try lia.
  - split; [|split; [|split; [|split]]]; try lia.
    1: intros _; split.
    all: try (intros m; destruct m).
    all: through (BaseCache._key this key); rewrite Hfs; vm_compute; reflexivity.
  - destruct (Z.lt_ge_cases c (now - Z.pos t)) as [Hc|Hc].
    + split; [|split; [|split; [|split]]]; try lia.
      1: intros _; split.
      all: try (intros m; destruct m).
      all: through (BaseCache._key this key); rewrite Hfs.
      all: under [true]; vm_compute; reflexivity.
    + split; [|split; [|split; [|split]]]; try lia.
      1: intros _; split.
      all: try (intros m; destruct m).
      all: through (BaseCache._key this key); rewrite Hfs.
      all: under [false]; vm_compute; reflexivity.
Qed.

Lemma get_honours_the_ttl_witness :
  outcome (promise_of 0)
    (play [Call (BaseCache.get api_cache "k" (VJson (JStr "d")) no_options); Turns 30]
          (init (calm 1000) (disk {[api_k := entry (Some 500) 10 (JStr "old")]})))
  = Some (Fulfilled (VJson (JStr "d")))
  /\ files (store
       (play [Call (BaseCache.get api_cache "k" (VJson (JStr "d")) no_options); Turns 30]
             (init (calm 1000) (disk {[api_k := entry (Some 500) 10 (JStr "old")]}))))
     !! BaseCache._key api_cache "k"
     = None.
Proof.
  pose proof (get_honours_the_ttl api_cache "k"
                {[api_k := entry (Some 500) 10 (JStr "old")]} 1000 10 500 (JStr "old")
                (JStr "d") (lookup_singleton_eq _ _)) as H.
  cbv zeta in H. assert (H1 : 0 <= 500) by lia.
  destruct (H H1) as [_ [H' _]]. apply H'. lia.
Defined.

(** X4. An entry stored without TTL never expires: whatever its age, a [get]
    resolves to the stored value, the clock is not consulted and the file
    stays. *)
Theorem get_without_ttl_never_expires
  (this : Cache) (key : string) (fs : gmap string json) (now c : Z) (v d : json) :
  fs !! BaseCache._key this key = Some (plain_entry c v) ->
  let pk := BaseCache._key this key in
  let s :=
    play [Call (BaseCache.get this key (VJson d) no_options); Turns 30]
         (init (calm now) (disk fs)) in
  outcome (promise_of 0) s = Some (Fulfilled (VJson v))
  /\ files (store s) !! pk = Some (plain_entry c v)
  /\ asked (core s) = []
  /\ quiescent s = true.
Proof.
  intros Hfs pk s. subst s pk.
  through (BaseCache._key this key). rewrite Hfs. vm_compute. repeat split.
Qed.

Lemma get_without_ttl_never_expires_witness :
  outcome (promise_of 0)
    (play [Call (BaseCache.get api_cache "k" (VJson (JStr "d")) no_options); Turns 30]
          (init (calm 1000) (disk {[api_k := plain_entry 10 (JStr "old")]})))
  = Some (Fulfilled (VJson (JStr "old"))).
Proof.
  pose proof (get_without_ttl_never_expires api_cache "k"
                {[api_k := plain_entry 10 (JStr "old")]} 1000 10 (JStr "old") (JStr "d")
                (lookup_singleton_eq _ _)) as H.
  cbv zeta in H. destruct H as [H' _]. exact H'.
Defined.

(** ** [markStale] and [del] *)

(** X5. [markStale] on a stored entry rewrites the creation time to 0 and
    keeps the value and the TTL (or its absence); on a key without entry it
    creates nothing. In both cases the call resolves to [undefined] and logs
    nothing. *)
Theorem markStale_resets_the_creation_time_only
  (this : Cache) (key : string) (fs : gmap string json) (now c : Z) (t : option Z)
  (v : json) :
  let pk := BaseCache._key this key in
  let s :=
    play [Call (BaseCache.markStale this (One key)); Turns 30]
         (init (calm now) (disk fs)) in
  (fs !! pk = Some (entry t c v) ->
   files (store s) !! pk = Some (entry t 0 v)
   /\ outcome (promise_of 0) s = Some (Fulfilled VUndef)
   /\ log (core s) = []
   /\ quiescent s = true)
  /\ (fs !! pk = None ->
      files (store s) !! pk = None
      /\ outcome (promise_of 0) s = Some (Fulfilled VUndef)
      /\ log (core s) = []
      /\ quiescent s = true).
Proof.
  intros pk s. subst s pk.
  split; intros Hfs; through (BaseCache._key this key); rewrite Hfs.
  - destruct t as [t|]; vm_compute; repeat split.
  - vm_compute; repeat split.
Qed.

Lemma markStale_resets_the_creation_time_only_witness :
  files (store
    (play [Call (BaseCache.markStale api_cache (One "k")); Turns 30]
          (init (calm 1000) (disk {[api_k := entry (Some 500) 900 (JStr "v")]}))))
  !! BaseCache._key api_cache "k"
  = Some (entry (Some 500) 0 (JStr "v")).
Proof.
  pose proof (markStale_resets_the_creation_time_only api_cache "k"
                {[api_k := entry (Some 500) 900 (JStr "v")]} 1000 900 (Some 500)
                (JStr "v")) as H.
  cbv zeta in H. destruct H as [H _].
  destruct (H (lookup_singleton_eq _ _)) as [H' _]. exact H'.
Defined.



(** X7. [del] removes the file of a stored entry, whatever it holds, and a
    later [get] resolves to the default; on a key without entry the failure
    of [unlink] is swallowed: the call resolves to [undefined] and logs
    nothing. *)
Theorem del_removes_the_entry
  (this : Cache) (key : string) (fs : gmap string json) (now : Z) (d : json) :
  let pk := BaseCache._key this key in
  let s :=
    play [Call (BaseCache.del this (One key)); Turns 30;
          Call (BaseCache.get this key (VJson d) no_options); Turns 30]
         (init (calm now) (disk fs)) in
  outcome (promise_of 0) s = Some (Fulfilled VUndef)
  /\ outcome (promise_of 1) s = Some (Fulfilled (VJson d))
  /\ files (store s) !! pk = None
  /\ log (core s) = []
  /\ quiescent s = true.
Proof.
  intros pk s. subst s pk.
  through (BaseCache._key this key).
  destruct (fs !! BaseCache._key this key) as [old|]; vm_compute; repeat split.
Qed.

(** ** Bypass, [forceUpdate] and hits *)



(** X9. With [forceUpdate], [getOrSet] does not look at the stored entry: the
    producer is entered, its value replaces whatever was stored, and the
    call resolves to it. *)
Theorem forceUpdate_regenerates
  (this : Cache) (key : string) (fs : gmap string json) (now : Z) (t : option Z)
  (v : json) (name : string) :
  let pk := BaseCache._key this key in
  let s :=
    play [Call (BaseCache.getOrSet this key (IFun (resolves name (VJson v)))
                  (forcing_options t));
          Turns 30]
         (init (calm now) (disk fs)) in
  calls (core s) = [(name, key)]
  /\ outcome (promise_of 0) s = Some (Fulfilled (VJson v))
  /\ files (store s) !! pk = Some (entry t now v)
  /\ asked (core s) = []
  /\ (forall m, maps (store s) m !! pk = None)
  /\ quiescent s = true.
Proof.
  intros pk s. subst s pk.
  split; [|split; [|split; [|split; [|split]]]].
  all: try (intros m; destruct m).
  all: through (BaseCache._key this key).
  all: generalize (fs !! BaseCache._key this key); intros o.
  all: destruct t as [t|]; destruct now as [|now|now]; vm_compute; reflexivity.
Qed.

(** X10. A hit. When an entry is stored and has not expired, [getOrSet]
    without [staleTTL] resolves to the stored value, the producer is not
    entered and the file stays as it is. *)
Theorem getOrSet_hit_does_not_enter_the_producer
  (this : Cache) (key : string) (fs : gmap string json) (now c : Z) (t t' : option Z)
  (old : json) (name : string) (f : string -> Result) :
  fs !! BaseCache._key this key = Some (entry t c old) -> unexpired t c now ->
  let pk := BaseCache._key this key in
  let s :=
    play [Call (BaseCache.getOrSet this key (IFun (SyncFn name f)) (ttl_options t'));
          Turns 30]
         (init (calm now) (disk fs)) in
  calls (core s) = []
  /\ outcome (promise_of 0) s = Some (Fulfilled (VJson old))
  /\ files (store s) !! pk = Some (entry t c old)
  /\ (forall m, maps (store s) m !! pk = None)
  /\ quiescent s = true.
Proof.
  intros Hfs Ht pk s. subst s pk.
  split; [|split; [|split; [|split]]].
  all: try (intros m; destruct m).
  all: through (BaseCache._key this key); rewrite Hfs.
  all: destruct t as [[|t|t]|]; simpl in Ht; try lia.
  all: destruct t' as [t'|]; under_some; vm_compute; reflexivity.
Qed.

Lemma getOrSet_hit_does_not_enter_the_producer_witness :
  calls (core
    (play [Call (BaseCache.getOrSet api_cache "k" (IFun (SyncFn "f" (fun _ => Ok (VNum 7))))
                   (ttl_options None));
           Turns 30]
          (init (calm 1000) (disk {[api_k := entry (Some 500) 900 (JStr "old")]}))))
  = []
  /\ outcome (promise_of 0)
       (play [Call (BaseCache.getOrSet api_cache "k"
                      (IFun (SyncFn "f" (fun _ => Ok (VNum 7)))) (ttl_options None));
              Turns 30]
             (init (calm 1000) (disk {[api_k := entry (Some 500) 900 (JStr "old")]})))
     = Some (Fulfilled (VJson (JStr "old"))).
Proof.
  pose proof (getOrSet_hit_does_not_enter_the_producer api_cache "k"
                {[api_k := entry (Some 500) 900 (JStr "old")]} 1000 900 (Some 500) None
                (JStr "old") "f" (fun _ => Ok (VNum 7)) (lookup_singleton_eq _ _)) as H.
  cbv zeta in H. assert (H1 : unexpired (Some 500) 900 1000) by (simpl; lia).
  destruct (H H1) as [H0 [H' _]]. split; [exact H0|exact H'].
Defined.

(** ** Stale-while-revalidate, continued *)

(** X11. When the stored entry is neither expired nor stale, a [getOrSet]
    with a [staleTTL] resolves to the stored value and schedules nothing:
    the producer is never entered, no timer is set, and the file stays as it
    is. *)
Theorem fresh_entry_is_not_regenerated
  (this : Cache) (key : string) (fs : gmap string json) (now c st : Z) (t : option Z)
  (old : json) (name : string) (f : string -> Result) :
  fs !! BaseCache._key this key = Some (entry t c old) ->
  unexpired t c now -> 0 < st -> now - st <= c ->
  let pk := BaseCache._key this key in
  let s :=
    play [Call (BaseCache.getOrSet this key (IFun (SyncFn name f)) (stale_options t st));
          Turns 30]
         (init (calm now) (disk fs)) in
  calls (core s) = []
  /\ outcome (promise_of 0) s = Some (Fulfilled (VJson old))
  /\ files (store s) !! pk = Some (entry t c old)
  /\ (forall m, maps (store s) m !! pk = None)
  /\ quiescent s = true.
Proof.
  intros Hfs Ht Hst Hc pk s. subst s pk.
  split; [|split; [|split; [|split]]].
  all: try (intros m; destruct m).
  all: through (BaseCache._key this key); rewrite Hfs.
  all: destruct st as [|st|st]; try lia.
  all: destruct t as [[|t|t]|]; simpl in Ht; try lia.
  all: under_some; vm_compute; reflexivity.
Qed.

Lemma fresh_entry_is_not_regenerated_witness :
  calls (core
    (play [Call (BaseCache.getOrSet api_cache "k" (IFun (SyncFn "f" (fun _ => Ok (VNum 7))))
                   (stale_options (Some 500) 200));
           Turns 30]
          (init (calm 1000) (disk {[api_k := entry (Some 500) 900 (JStr "old")]}))))
  = [].
Proof.
  pose proof (fresh_entry_is_not_regenerated api_cache "k"
                {[api_k := entry (Some 500) 900 (JStr "old")]} 1000 900 200 (Some 500)
                (JStr "old") "f" (fun _ => Ok (VNum 7)) (lookup_singleton_eq _ _)) as H.
  cbv zeta in H. assert (H1 : unexpired (Some 500) 900 1000) by (simpl; lia).
  assert (H2 : 0 < 200) by lia. assert (H3 : 1000 - 200 <= 900) by lia.
  destruct (H H1 H2 H3) as [H' _]. exact H'.
Defined.

(** X12. When the stored entry is stale and [freshResult] is set, [getOrSet]
    waits for the producer: it resolves to the new value, which replaces the
    entry; the producer is entered once. *)
Theorem stale_entry_with_freshResult_is_regenerated_first
  (this : Cache) (key : string) (fs : gmap string json) (now c st : Z) (t : option Z)
  (old v : json) (name : string) :
  fs !! BaseCache._key this key = Some (entry t c old) ->
  unexpired t c now -> 0 < st -> c < now - st -> 0 < now ->
  let pk := BaseCache._key this key in
  let s :=
    play [Call (BaseCache.getOrSet this key (IFun (resolves name (VJson v)))
                  (fresh_options t st));
          Turns 40]
         (init (calm now) (disk fs)) in
  calls (core s) = [(name, key)]
  /\ outcome (promise_of 0) s = Some (Fulfilled (VJson v))
  /\ files (store s) !! pk = Some (entry t now v)
  /\ (forall m, maps (store s) m !! pk = None)
  /\ quiescent s = true.
Proof.
  intros Hfs Ht Hst Hc Hnow pk s. subst s pk.
  split; [|split; [|split; [|split]]].
  all: try (intros m; destruct m).
  all: through (BaseCache._key this key); rewrite Hfs.
  all: destruct st as [|st|st]; try lia; destruct now as [|now|now]; try lia.
  all: destruct t as [[|t|t]|]; simpl in Ht; try lia.
  all: under_some; vm_compute; reflexivity.
Qed.

Lemma stale_entry_with_freshResult_is_regenerated_first_witness :
  outcome (promise_of 0)
    (play [Call (BaseCache.getOrSet api_cache "k" (IFun (resolves "f" (VJson (JNum 7))))
                   (fresh_options None 100));
           Turns 40]
          (init (calm 1000) (disk {[api_k := entry None 10 (JStr "old")]})))
  = Some (Fulfilled (VJson (JNum 7))).
Proof.
  pose proof (stale_entry_with_freshResult_is_regenerated_first api_cache "k"
                {[api_k := entry None 10 (JStr "old")]} 1000 10 100 None
                (JStr "old") (JNum 7) "f" (lookup_singleton_eq _ _) I) as H.
  cbv zeta in H. assert (H2 : 0 < 100) by lia. assert (H3 : 10 < 1000 - 100) by lia.
  assert (H4 : 0 < 1000) by lia.
  destruct (H H2 H3 H4) as [_ [H' _]]. exact H'.
Defined.

(** ** Concurrent reads *)

(** X13. Two [get] calls made back to back issue one read of the file
    between them: the second waits on the promise in [getting]. Both resolve
    to the stored value, or each to its own default when nothing is stored,
    and [getting] is empty at the end. *)
Theorem concurrent_gets_share_one_read
  (this : Cache) (key : string) (fs : gmap string json) (now c : Z) (t : option Z)
  (v d d' : json) :
  let pk := BaseCache._key this key in
  let both :=
    [Call (BaseCache.get this key (VJson d) no_options);
     Call (BaseCache.get this key (VJson d') no_options)] in
  let issued := play both (init (calm now) (disk fs)) in
  let s := play (both ++ [Turns 30]) (init (calm now) (disk fs)) in
  List.length (macro (core issued)) = 1%nat
  /\ (fs !! pk = Some (entry t c v) -> unexpired t c now ->
      outcome (promise_of 0) s = Some (Fulfilled (VJson v))
      /\ outcome (promise_of 1) s = Some (Fulfilled (VJson v))
      /\ maps (store s) getting !! pk = None
      /\ quiescent s = true)
  /\ (fs !! pk = None ->
      outcome (promise_of 0) s = Some (Fulfilled (VJson d))
      /\ outcome (promise_of 1) s = Some (Fulfilled (VJson d'))
      /\ maps (store s) getting !! pk = None
      /\ quiescent s = true).
Proof.
  intros pk both issued s. subst issued s both pk. cbn [app].
  split; [|split].
  - through (BaseCache._key this key).
    generalize (fs !! BaseCache._key this key). intros o. vm_compute. reflexivity.
  - intros Hfs Ht. through (BaseCache._key this key). rewrite Hfs.
    destruct t as [[|t|t]|]; simpl in Ht; try lia; under_some; vm_compute;
      repeat split.
  - intros Hfs. through (BaseCache._key this key). rewrite Hfs.
    vm_compute. repeat split.
Qed.

Lemma concurrent_gets_share_one_read_witness :
  outcome (promise_of 1)
    (play ([Call (BaseCache.get api_cache "k" (VJson (JStr "d")) no_options);
            Call (BaseCache.get api_cache "k" (VJson (JStr "e")) no_options)]
           ++ [Turns 30])
          (init (calm 1000) (disk {[api_k := entry (Some 500) 900 (JStr "v")]})))
  = Some (Fulfilled (VJson (JStr "v"))).
Proof.
  pose proof (concurrent_gets_share_one_read api_cache "k"
                {[api_k := entry (Some 500) 900 (JStr "v")]} 1000 900 (Some 500)
                (JStr "v") (JStr "d") (JStr "e")) as H.
  cbv zeta in H. destruct H as [_ [H _]].
  assert (H1 : unexpired (Some 500) 900 1000) by (simpl; lia).
  destruct (H (lookup_singleton_eq _ _) H1) as [_ [H' _]]. exact H'.
Defined.

(** ** Edge cases of [getOrSet] and [set] *)

(** X14. When the producer of a [getOrSet] yields [undefined], nothing is
    stored and the call resolves to [options.default]; a synchronous
    producer's [undefined] is logged by [set], an asynchronous one's is not.
    The in-flight maps are empty at the end. *)
Theorem getOrSet_of_undefined_resolves_to_the_default
  (this : Cache) (key : string) (fs : gmap string json) (now : Z) (t : option Z)
  (d : option json) (name : string) :
  fs !! BaseCache._key this key = None ->
  let pk := BaseCache._key this key in
  let sync :=
    play [Call (BaseCache.getOrSet this key (IFun (returns name VUndef))
                  (default_options t d));
          Turns 30] (init (calm now) (disk fs)) in
  let async :=
    play [Call (BaseCache.getOrSet this key (IFun (resolves name VUndef))
                  (default_options t d));
          Turns 30] (init (calm now) (disk fs)) in
  (outcome (promise_of 0) sync = Some (Fulfilled (of_json d))
   /\ log (core sync) = [[undefined_message this key]]
   /\ files (store sync) !! pk = None
   /\ (forall m, maps (store sync) m !! pk = None)
   /\ quiescent sync = true)
  /\ (outcome (promise_of 0) async = Some (Fulfilled (of_json d))
      /\ log (core async) = []
      /\ files (store async) !! pk = None
      /\ (forall m, maps (store async) m !! pk = None)
      /\ quiescent async = true).
Proof.
  intros Hfs pk sync async. subst sync async pk.
  split; (split; [|split; [|split; [|split]]]).
  all: try (intros m; destruct m).
  all: through (BaseCache._key this key); rewrite Hfs.
  all: destruct t as [t|]; destruct d as [d|]; vm_compute; reflexivity.
Qed.

Lemma getOrSet_of_undefined_resolves_to_the_default_witness :
  outcome (promise_of 0)
    (play [Call (BaseCache.getOrSet api_cache "k" (IFun (resolves "f" VUndef))
                   (default_options None (Some (JStr "d"))));
           Turns 30] (init (calm 1000) (disk ∅)))
  = Some (Fulfilled (VJson (JStr "d"))).
Proof.
  pose proof (getOrSet_of_undefined_resolves_to_the_default api_cache "k" ∅ 1000 None
                (Some (JStr "d")) "f" (lookup_empty _)) as H.
  cbv zeta in H. destruct H as [_ [H' _]]. exact H'.
Defined.

(** X15. A TTL given as a string goes through [timestring]: when it parses
    to [n], the entry is stored with TTL [n]; when [timestring] throws,
    [set] rejects with that error, logs it and deletes the key. *)
Theorem string_ttl_is_parsed_before_storing
  (this : Cache) (key : string) (fs : gmap string json) (now n : Z) (str : string)
  (v : json) :
  let pk := BaseCache._key this key in
  let call := Call (BaseCache.set this key (IVal (VJson v)) (with_ttl (VStr str)) None) in
  let parsed := play [call; Turns 30] (init (parsing now (Some n)) (disk fs)) in
  let refused := play [call; Turns 30] (init (parsing now None) (disk fs)) in
  (outcome (promise_of 0) parsed = Some (Fulfilled VTrue)
   /\ files (store parsed) !! pk = Some (entry (Some n) now v)
   /\ log (core parsed) = []
   /\ maps (store parsed) setting !! pk = None
   /\ quiescent parsed = true)
  /\ (outcome (promise_of 0) refused = Some (Rejected (VErr "timestring"))
      /\ files (store refused) !! pk = None
      /\ log (core refused) = [[failure_message this key; VErr "timestring"]]
      /\ maps (store refused) setting !! pk = None
      /\ quiescent refused = true).
Proof.
  intros pk call parsed refused. subst parsed refused call pk.
  through (BaseCache._key this key).
  destruct (fs !! BaseCache._key this key) as [old|]; destruct now as [|now|now];
    vm_compute; repeat split.
Qed.

(** ** [memoize] *)





(** ** Many callers waiting on one computation *)

Lemma lookup_new_row {A : Type} (P : list A) (row : A) :
  list_lookup (List.length P) (P ++ [row]) = Some row.
Proof. apply list_lookup_middle. reflexivity. Qed.

Lemma alter_new_row {A : Type} (f : A -> A) (P : list A) (row : A) :
  list_alter f (List.length P) (P ++ [row]) = P ++ [f row].
Proof.
  induction P as [|x P IH]; [reflexivity|]. simpl. f_equal. exact IH.
Qed.

Lemma lookup_old_row {A : Type} (P X : list A) i :
  (i < List.length P)%nat -> list_lookup i (P ++ X) = list_lookup i P.
Proof. apply lookup_app_l. Qed.

Lemma alter_old_row {A : Type} (f : A -> A) (P X : list A) i :
  (i < List.length P)%nat -> list_alter f i (P ++ X) = list_alter f i P ++ X.
Proof. apply alter_app_l. Qed.

Lemma alter_middle {A : Type} (f : A -> A) (P X : list A) (x : A) :
  list_alter f (List.length P) (P ++ x :: X) = P ++ f x :: X.
Proof.
  induction P as [|y P IH]; [reflexivity|]. simpl. f_equal. exact IH.
Qed.

Lemma lookup_middle {A : Type} (P X : list A) (x : A) :
  list_lookup (List.length P) (P ++ x :: X) = Some x.
Proof. apply list_lookup_middle. reflexivity. Qed.

Lemma insert_as_alter {A : Type} (f : A -> A) (row : list A) j x :
  list_lookup j row = Some x -> list_insert j (f x) row = list_alter f j row.
Proof.
  revert j. induction row as [|y row IH]; intros [|j] Hj; try discriminate Hj.
  - injection Hj as ->. reflexivity.
  - simpl. f_equal. apply IH, Hj.
Qed.

Lemma alter_row_as_alter {A : Type} (g h : A -> A) (P : list A) i row :
  list_lookup i P = Some row -> g row = h row -> list_alter g i P = list_alter h i P.
Proof.
  revert i. induction P as [|y P IH]; intros [|i] Hi E; try discriminate Hi.
  - injection Hi as ->. simpl. rewrite E. reflexivity.
  - simpl. f_equal. apply IH; assumption.
Qed.

Lemma lookup_new_row_at {A : Type} (P : list A) (row : A) n :
  List.length P = n -> list_lookup n (P ++ [row]) = Some row.
Proof. intros <-. apply lookup_new_row. Qed.

Lemma alter_new_row_at {A : Type} (f : A -> A) (P : list A) (row : A) n :
  List.length P = n -> list_alter f n (P ++ [row]) = P ++ [f row].
Proof. intros <-. apply alter_new_row. Qed.

Lemma length_list_alter {A : Type} (f : A -> A) (l : list A) i :
  List.length (list_alter f i l) = List.length l.
Proof. apply length_alter. Qed.

Lemma lookup_alter_same {A : Type} (f : A -> A) (l : list A) i :
  list_lookup i (list_alter f i l) = f <$> list_lookup i l.
Proof. apply list_lookup_alter_eq. Qed.

Lemma alter_alter {A : Type} (f g : A -> A) (l : list A) i :
  list_alter f i (list_alter g i l) = list_alter (fun x => f (g x)) i l.
Proof. revert i. induction l as [|x l IH]; intros [|i]; simpl; f_equal; auto. Qed.

Lemma alter_ext {A : Type} (f g : A -> A) (l : list A) i :
  (forall x, f x = g x) -> list_alter f i l = list_alter g i l.
Proof.
  intros E. revert i. induction l as [|x l IH]; intros [|i]; simpl; f_equal; auto.
Qed.

Lemma alter_same {A : Type} (f : A -> A) (l : list A) i :
  (forall x, f x = x) -> list_alter f i l = l.
Proof.
  intros E. revert i. induction l as [|x l IH]; intros [|i]; simpl; f_equal; auto.
Qed.

Lemma add_reactions_nil x : add_reactions [] x = x.
Proof. destruct x; simpl; [rewrite app_nil_r|..]; reflexivity. Qed.

Lemma add_reactions_app e1 e2 x :
  add_reactions e2 (add_reactions e1 x) = add_reactions (e1 ++ e2) x.
Proof. destruct x; simpl; [rewrite app_assoc|..]; reflexivity. Qed.

Lemma attach_nil q c : attach q [] [] c = c.
Proof.
  destruct c as [w P hp mi ma lg cl ak]. unfold attach, set_promises. simpl.
  rewrite app_nil_r. f_equal. apply alter_same. intros row.
  apply alter_same, add_reactions_nil.
Qed.

Lemma attach_attach q e1 r1 e2 r2 c :
  (fst q < List.length (promises c))%nat ->
  attach q e2 r2 (attach q e1 r1 c) = attach q (e1 ++ e2) (r1 ++ r2) c.
Proof.
  destruct c as [w P hp mi ma lg cl ak]. unfold attach, set_promises. simpl.
  intros Hlt. f_equal.
  rewrite alter_old_row by (rewrite length_list_alter; exact Hlt).
  rewrite alter_alter, <- app_assoc. f_equal.
  apply alter_ext. intros row. rewrite alter_alter.
  apply alter_ext, add_reactions_app.
Qed.

Lemma promise_at_attach q e r c rs :
  promise_at q c = Some (Pending rs) ->
  promise_at q (attach q e r c) = Some (Pending (rs ++ e)).
Proof.
  destruct c as [w P hp mi ma lg cl ak]. unfold attach, set_promises, promise_at.
  simpl. destruct (list_lookup (fst q) P) as [row|] eqn:Erow; [|discriminate].
  intros Hq.
  rewrite lookup_old_row
    by (rewrite length_list_alter; eapply lookup_lt_Some; exact Erow).
  rewrite lookup_alter_same, Erow. simpl.
  rewrite lookup_alter_same, Hq. reflexivity.
Qed.

Lemma length_attach q e r c :
  List.length (promises (attach q e r c))
  = (List.length (promises c) + List.length r)%nat.
Proof.
  destruct c as [w P hp mi ma lg cl ak]. unfold attach, set_promises. simpl.
  rewrite length_app, length_list_alter. reflexivity.
Qed.

Section Waiting.

Context {St : Type} `{Store St}.

(** A [getOrSet] that finds a pending promise in [getOrSetting] leaves a
    reaction on it and returns; it changes nothing else. *)
Lemma follower_call this key value o q rs (s : State St) :
  truthy (staleTTL o) = false ->
  map_get getOrSetting (BaseCache._key this key) (store s) = Some (VProm q) ->
  promise_at q (core s) = Some (Pending rs) ->
  call (BaseCache.getOrSet this key value o) s
  = on_core
      (attach q [follower_reaction o (List.length (promises (core s)))]
         [[Pending []; Pending [forward (List.length (promises (core s)))]]])
      s.
Proof.
  intros Hstale Hmap Hq.
  destruct s as [st [w P hp mi ma lg cl ak]]. simpl in Hmap, Hq.
  unfold promise_at in Hq. simpl in Hq.
  destruct (list_lookup (fst q) P) as [row|] eqn:Erow; [|discriminate Hq].
  assert (Hlt : (fst q < List.length P)%nat) by (eapply lookup_lt_Some; exact Erow).
  unfold call, call_promise, BaseCache.getOrSet. rewrite Hstale.
  unfold BaseCache._getOrSetting, BaseCache._fetching.
  cbn [exec on_core store core]. rewrite Hmap.
  unfold return_call, BaseCache._withDefaultOpts, await, attach, follower_reaction,
    forward.
  simpl. unfold next_promise, subscribe, promise_at, alloc, put_promise, set_promises,
    on_core.
  simpl.
  rewrite !lookup_new_row. simpl.
  rewrite alter_new_row. simpl.
  rewrite (lookup_old_row P _ _ Hlt), Erow, Hq.
  rewrite (alter_old_row _ P _ _ Hlt). simpl.
  unfold subscribe, promise_at, put_promise, set_promises. simpl.
  rewrite (lookup_new_row_at _ _ (List.length P)) by apply length_alter. simpl.
  rewrite (alter_new_row_at _ _ _ (List.length P)) by apply length_alter. simpl.
  do 3 f_equal.
  apply (alter_row_as_alter _ _ P (fst q) row Erow).
  apply (insert_as_alter
           (add_reactions
              [mkReaction (waiting o) Throw (List.length P, 1%nat)])
           row (snd q) (Pending rs) Hq).
Qed.

(** The state after any number of such calls. *)
Lemma followers_called this key value q os :
  forall rs (s : State St),
    Forall plain os ->
    map_get getOrSetting (BaseCache._key this key) (store s) = Some (VProm q) ->
    promise_at q (core s) = Some (Pending rs) ->
    play (map (fun o => Call (BaseCache.getOrSet this key value o)) os) s
    = on_core
        (attach q (follower_reactions (List.length (promises (core s))) os)
           (waiting_rows (List.length (promises (core s))) os))
        s.
Proof.
  induction os as [|o os IH]; intros rs s Hos Hmap Hq.
  - simpl. unfold on_core. rewrite attach_nil. destruct s; reflexivity.
  - apply Forall_cons_1 in Hos as [[Hstale _] Hos].
    cbn [map play act].
    rewrite (follower_call this key value o q rs s Hstale Hmap Hq).
    rewrite (IH (rs ++ [follower_reaction o (List.length (promises (core s)))])
               _ Hos).
    + unfold on_core. cbn [store core]. rewrite length_attach.
      rewrite attach_attach.
      * cbn [List.length]. rewrite Nat.add_1_r. reflexivity.
      * unfold promise_at in Hq.
        destruct (list_lookup (fst q) (promises (core s))) eqn:E;
          [|discriminate Hq].
        eapply lookup_lt_Some. exact E.
    + exact Hmap.
    + apply promise_at_attach. exact Hq.
Qed.

End Waiting.

Lemma jobs_of_followers v os : forall i,
  jobs_of (Fulfilled v) (follower_reactions i os) = waiting_jobs v i os.
Proof.
  induction os as [|o os IH]; intros i; [reflexivity|].
  simpl. f_equal. apply IH.
Qed.

Section Draining.

Context {St : Type} `{Store St}.

(** The reactions of the waiting calls run in turn: each fulfils the inner
    promise of its call and queues the forwarding of the result. *)
Lemma waiting_jobs_run (j : json) os :
  forall P Q (st : St) w hp ma lg cl ak,
    Forall plain os ->
    run (List.length os)
      (mkState st
         (mkCore w (P ++ waiting_rows (List.length P) os) hp
            (waiting_jobs (VJson j) (List.length P) os ++ Q) ma lg cl ak))
    = mkState st
        (mkCore w (P ++ half_rows (VJson j) os) hp
           (Q ++ forward_jobs (VJson j) (List.length P) os) ma lg cl ak).
Proof.
  induction os as [|o os IH]; intros P Q st w hp ma lg cl ak Hos.
  - simpl. rewrite !app_nil_r. reflexivity.
  - apply Forall_cons_1 in Hos as [[_ Hprocess] Hos].
    cbn [List.length run waiting_rows waiting_jobs app].
    unfold step. cbn [micro core on_core store].
    unfold waiting at 1. cbn [is_undef]. rewrite Hprocess.
    cbn [BaseCache.apply_process exec].
    unfold on_core, resolve, settle, promise_at, put_promise, set_promises, set_micro.
    cbn [store core fst snd promises micro world heap macro log calls asked].
    rewrite lookup_middle, alter_middle.
    cbn -[run waiting_jobs waiting_rows half_rows forward_jobs done_rows List.length app].
    specialize (IH (P ++ [[Pending []; Fulfilled (VJson j)]])
                  (Q ++ [(Return (VJson j), (List.length P, 0%nat))])
                  st w hp ma lg cl ak Hos).
    rewrite length_app in IH. cbn [List.length] in IH.
    rewrite Nat.add_1_r in IH.
    rewrite <- !app_assoc in IH. cbn [app] in IH.
    rewrite <- app_assoc. exact IH.
Qed.

(** The forwarding jobs run in turn: each fulfils the promise its call
    returned. *)
Lemma forward_jobs_run (v : Val) os :
  forall P Q (st : St) w hp ma lg cl ak,
    is_thenable v = false ->
    run (List.length os)
      (mkState st
         (mkCore w (P ++ half_rows v os) hp
            (forward_jobs v (List.length P) os ++ Q) ma lg cl ak))
    = mkState st (mkCore w (P ++ done_rows v os) hp Q ma lg cl ak).
Proof.
  induction os as [|o os IH]; intros P Q st w hp ma lg cl ak Hv.
  - simpl. rewrite ?app_nil_r. reflexivity.
  - cbn [List.length run half_rows forward_jobs map app].
    unfold step. cbn [micro core on_core store exec].
    assert (Hres : forall p c, resolve p v c = settle p (Fulfilled v) c).
    { intros p c. destruct v; try reflexivity. discriminate Hv. }
    unfold on_core. rewrite Hres.
    unfold settle, promise_at, put_promise, set_promises, set_micro.
    cbn [store core fst snd promises micro world heap macro log calls asked].
    rewrite lookup_middle, alter_middle.
    cbn -[run waiting_jobs waiting_rows half_rows forward_jobs done_rows List.length app].
    rewrite app_nil_r.
    specialize (IH (P ++ [[Fulfilled v; Fulfilled v]]) Q st w hp ma lg cl ak Hv).
    rewrite length_app in IH. cbn [List.length] in IH.
    rewrite Nat.add_1_r in IH.
    rewrite <- !app_assoc in IH. cbn [app] in IH.
    unfold half_rows, done_rows in *. cbn [map]. exact IH.
Qed.

(** Both rounds. *)
Lemma waiting_calls_resolve (j : json) os (s : State St) :
  Forall plain os ->
  micro (core s) = [] ->
  run (2 * List.length os)
    (on_core
       (deliver (waiting_jobs (VJson j) (List.length (promises (core s))) os)
          (waiting_rows (List.length (promises (core s))) os))
       s)
  = on_core (set_promises (fun tbl => tbl ++ done_rows (VJson j) os)) s.
Proof.
  intros Hos Hmicro. destruct s as [st [w P hp mi ma lg cl ak]].
  simpl in Hmicro. subst mi.
  unfold on_core, deliver, set_micro, set_promises. cbn [store core promises micro
    world heap macro log calls asked app].
  replace (2 * List.length os)%nat with (List.length os + List.length os)%nat by lia.
  rewrite run_add.
  rewrite <- (app_nil_r (waiting_jobs (VJson j) (List.length P) os)).
  rewrite (waiting_jobs_run j os P [] st w hp ma lg cl ak Hos).
  cbn [app].
  rewrite <- (app_nil_r (forward_jobs (VJson j) (List.length P) os)).
  apply (forward_jobs_run (VJson j) os P [] st w hp ma lg cl ak). reflexivity.
Qed.

End Draining.

Lemma play_app {St : Type} `{Store St} (a b : list Action) :
  forall s : State St, play (a ++ b) s = play b (play a s).
Proof. induction a as [|x a IH]; intros s; [reflexivity|]. simpl. apply IH. Qed.

Lemma lookup_done_rows v os i :
  (i < List.length os)%nat ->
  list_lookup i (done_rows v os) = Some [Fulfilled v; Fulfilled v].
Proof.
  unfold done_rows. revert i. induction os as [|o os IH]; intros i Hi; simpl in Hi;
    [lia|].
  destruct i as [|i]; [reflexivity|]. simpl. apply IH. lia.
Qed.

(** With any number of further callers, the loop ends as it does with the
    first caller alone, with one row of fulfilled promises per further
    caller. *)
Lemma waiting_callers_are_served (this : Cache) (key : string) (now : Z) (t : option Z)
  (v : json) (name : string) (value : Input) (os : list Options) :
  Forall plain os ->
  play (Call (BaseCache.getOrSet this key (IFun (resolves name (VJson v))) (ttl_options t))
        :: map (fun o => Call (BaseCache.getOrSet this key value o)) os
        ++ [Turns (15 + 2 * List.length os)])
       (init (calm now) (slots_init None))
  = on_core (set_promises (fun tbl => tbl ++ done_rows (VJson v) os))
      (play [Call (BaseCache.getOrSet this key (IFun (resolves name (VJson v)))
                     (ttl_options t));
             Turns 15]
            (init (calm now) (slots_init None))).
Proof.
  intros Hos.
  change (Call (BaseCache.getOrSet this key (IFun (resolves name (VJson v)))
                  (ttl_options t))
          :: map (fun o => Call (BaseCache.getOrSet this key value o)) os
          ++ [Turns (15 + 2 * List.length os)])
    with ([Call (BaseCache.getOrSet this key (IFun (resolves name (VJson v)))
                   (ttl_options t))]
          ++ map (fun o => Call (BaseCache.getOrSet this key value o)) os
          ++ [Turns (15 + 2 * List.length os)]).
  rewrite !play_app. cbn [play act].
  set (sL := call (BaseCache.getOrSet this key (IFun (resolves name (VJson v)))
                     (ttl_options t))
                  (init (calm now) (slots_init None))).
  assert (Hmap : map_get getOrSetting (BaseCache._key this key) (store sL)
                 = Some (VProm (0, 1)%nat)).
  { subst sL. vm_compute. reflexivity. }
  assert (Hq : match promise_at (0, 1)%nat (core sL) with
               | Some (Pending _) => True
               | _ => False
               end).
  { subst sL. vm_compute. exact I. }
  destruct (promise_at (0, 1)%nat (core sL)) as [[rs| |]|] eqn:Eq;
    try contradiction.
  clear Hq. rename Eq into Hq.
  assert (Hlen : List.length (promises (core sL)) = 1%nat).
  { subst sL. vm_compute. reflexivity. }
  rewrite (followers_called this key value (0, 1)%nat os rs sL Hos Hmap Hq).
  rewrite Hlen, run_add.
  assert (Hfirst : forall ex rows,
    run 15 (on_core (attach (0, 1)%nat ex rows) sL)
    = on_core (deliver (jobs_of (Fulfilled (VJson v)) ex ++ []) rows) (run 15 sL)).
  { intros ex rows. subst sL.
    destruct t as [t|]; destruct now as [|now|now]; vm_compute; reflexivity. }
  rewrite Hfirst, app_nil_r, jobs_of_followers.
  assert (Hmicro : micro (core (run 15 sL)) = []).
  { subst sL. destruct t as [t|]; destruct now as [|now|now]; vm_compute;
      reflexivity. }
  assert (Hlen' : List.length (promises (core (run 15 sL))) = 1%nat).
  { subst sL. destruct t as [t|]; destruct now as [|now|now]; vm_compute;
      reflexivity. }
  pose proof (waiting_calls_resolve v os (run 15 sL) Hos Hmicro) as Hw.
  rewrite Hlen' in Hw. exact Hw.
Qed.

Lemma followers_only this key value os :
  input_only (BaseCache._key this key) key value ->
  Forall (action_only (BaseCache._key this key))
    (map (fun o => Call (BaseCache.getOrSet this key value o)) os).
Proof.
  intros Hvalue. induction os as [|o os IH]; [apply Forall_nil_2|].
  apply Forall_cons_2; [|exact IH]. apply only_getOrSet. exact Hvalue.
Qed.

Lemma lookup_after_first {A : Type} (x : A) (l : list A) i :
  list_lookup (S i) ([x] ++ l) = list_lookup i l.
Proof. reflexivity. Qed.

(** X17. Any number of [getOrSet] calls for a key without entry, made back
    to back, the first with a TTL or none, the others with any options that
    have neither [staleTTL] nor [process]: the producer of the first call is
    entered once, the producer of the others never; every call resolves to
    the value the first producer resolved to, which is stored, and the
    in-flight maps are empty at the end. *)
Theorem every_waiting_getOrSet_gets_the_first_result
  (this : Cache) (key : string) (fs : gmap string json) (now : Z) (t : option Z)
  (v v' : json) (name name' : string) (os : list Options) :
  fs !! BaseCache._key this key = None -> Forall plain os ->
  let pk := BaseCache._key this key in
  let s :=
    play (Call (BaseCache.getOrSet this key (IFun (resolves name (VJson v)))
                  (ttl_options t))
          :: map (fun o => Call (BaseCache.getOrSet this key
                                   (IFun (resolves name' (VJson v'))) o)) os
          ++ [Turns (15 + 2 * List.length os)])
         (init (calm now) (disk fs)) in
  calls (core s) = [(name, key)]
  /\ (forall i, (i <= List.length os)%nat ->
      outcome (promise_of i) s = Some (Fulfilled (VJson v)))
  /\ files (store s) !! pk = Some (entry t now v)
  /\ (forall m, maps (store s) m !! pk = None)
  /\ log (core s) = []
  /\ quiescent s = true.
Proof.
  intros Hfs Hos pk s. subst s pk.
  assert (Honly :
    Forall (action_only (BaseCache._key this key))
      (Call (BaseCache.getOrSet this key (IFun (resolves name (VJson v)))
               (ttl_options t))
       :: map (fun o => Call (BaseCache.getOrSet this key
                                (IFun (resolves name' (VJson v'))) o)) os
       ++ [Turns (15 + 2 * List.length os)])).
  { apply Forall_cons_2; [apply only_getOrSet; simpl; constructor|].
    apply Forall_app_2; [apply followers_only; simpl; constructor|].
    apply Forall_cons_2; [exact I|apply Forall_nil_2]. }
  rewrite ?(outcome_view (BaseCache._key this key)),
    ?(quiescent_view (BaseCache._key this key)),
    ?(core_view (BaseCache._key this key)),
    ?(files_view (BaseCache._key this key)).
  assert (Hmaps : forall m st, maps (store st) m !! BaseCache._key this key
                               = slot m (store (view (BaseCache._key this key) st))).
  { intros m st. apply maps_view. }
  setoid_rewrite Hmaps. setoid_rewrite (outcome_view (BaseCache._key this key)).
  rewrite (fresh_view _ _ _ _ Honly), Hfs.
  change (slots_init None) with (slots_init None).
  rewrite (waiting_callers_are_served this key now t v name
             (IFun (resolves name' (VJson v'))) os Hos).
  set (X := play [Call (BaseCache.getOrSet this key (IFun (resolves name (VJson v)))
                          (ttl_options t));
                  Turns 15] (init (calm now) (slots_init None))).
  assert (F1 : calls (core X) = [(name, key)]).
  { subst X. destruct t as [t|]; destruct now as [|now|now]; vm_compute; reflexivity. }
  assert (F2 : List.length (promises (core X)) = 1%nat).
  { subst X. destruct t as [t|]; destruct now as [|now|now]; vm_compute; reflexivity. }
  assert (F3 : promise_at (0, 0)%nat (core X) = Some (Fulfilled (VJson v))).
  { subst X. destruct t as [t|]; destruct now as [|now|now]; vm_compute; reflexivity. }
  assert (F4 : slot_file (store X) = Some (entry t now v)).
  { subst X. destruct t as [t|]; destruct now as [|now|now]; vm_compute; reflexivity. }
  assert (F5 : forall m, slot m (store X) = None).
  { intros m. subst X.
    destruct m; destruct t as [t|]; destruct now as [|now|now]; vm_compute;
      reflexivity. }
  assert (F6 : log (core X) = []).
  { subst X. destruct t as [t|]; destruct now as [|now|now]; vm_compute; reflexivity. }
  assert (F7 : quiescent X = true).
  { subst X. destruct t as [t|]; destruct now as [|now|now]; vm_compute; reflexivity. }
  clearbody X. destruct X as [st [w P hp mi ma lg cl ak]].
  unfold on_core, outcome, promise_at, set_promises, quiescent, promise_of in *.
  cbn [store core promises calls log micro macro fst snd world heap asked] in *.
  split; [exact F1|split; [|split; [exact F4|split; [exact F5|split; [exact F6|exact F7]]]]].
  intros i Hi. destruct P as [|row [|row' P]]; try discriminate F2.
  destruct i as [|i]; [exact F3|].
  rewrite lookup_after_first, lookup_done_rows by lia. reflexivity.
Qed.

Lemma every_waiting_getOrSet_gets_the_first_result_witness :
  outcome (promise_of 3)
    (play (Call (BaseCache.getOrSet api_cache "k" (IFun (resolves "f" (VJson (JNum 7))))
                   (ttl_options (Some 500)))
           :: map (fun o => Call (BaseCache.getOrSet api_cache "k"
                                    (IFun (resolves "g" (VJson (JNum 8)))) o))
                [no_options; ttl_options None; default_options None (Some (JStr "d"))]
           ++ [Turns (15 + 2 * List.length
                                 [no_options; ttl_options None;
                                  default_options None (Some (JStr "d"))])])
          (init (calm 1000) (disk ∅)))
  = Some (Fulfilled (VJson (JNum 7))).
Proof.
  assert (Hplain : Forall plain
            [no_options; ttl_options None; default_options None (Some (JStr "d"))]).
  { repeat constructor. }
  pose proof (every_waiting_getOrSet_gets_the_first_result api_cache "k" ∅ 1000
                (Some 500) (JNum 7) (JNum 8) "f" "g" _ (lookup_empty _) Hplain) as H.
  cbv zeta in H. destruct H as [_ [H _]]. apply (H 3%nat). simpl. lia.
Defined.

(** ** A read that fails *)

(** X18. When the read of the file fails with an error other than [ENOENT],
    [_get] logs the error and reports a miss: [get] resolves to the default,
    the file is not touched and [getting] is empty at the end. *)
Theorem failed_read_is_logged_and_counts_as_a_miss
  (this : Cache) (key : string) (fs : gmap string json) (now : Z) (e : Val) (d : json) :
  Backend.is_ENOENT e = false ->
  let pk := BaseCache._key this key in
  let s :=
    play [Call (BaseCache.get this key (VJson d) no_options); Turns 30]
         (init (failing_reads now e) (disk fs)) in
  outcome (promise_of 0) s = Some (Fulfilled (VJson d))
  /\ log (core s) = [[e]]
  /\ files (store s) !! pk = fs !! pk
  /\ maps (store s) getting !! pk = None
  /\ quiescent s = true.
Proof.
  intros He pk s. subst s pk.
  through (BaseCache._key this key).
  generalize (fs !! BaseCache._key this key). intros o.
  change (Turns 30) with (Turns (2 + 28)). cbn [play act]. rewrite run_add.
  assert (Hstep :
    run 2 (call (BaseCache.get this key (VJson d) no_options)
             (init (failing_reads now e) (slots_init o)))
    = exec (if Backend.is_ENOENT e then Return VUndef else Throw e) (0, 3)%nat
        (on_core (set_micro (fun _ => []))
           (run 1 (call (BaseCache.get this key (VJson d) no_options)
                     (init (failing_reads now e) (slots_init o)))))).
  { vm_compute. reflexivity. }
  rewrite Hstep, He. vm_compute. repeat split.
Qed.

Lemma failed_read_is_logged_and_counts_as_a_miss_witness :
  outcome (promise_of 0)
    (play [Call (BaseCache.get api_cache "k" (VJson (JStr "d")) no_options);
           Turns 30]
          (init (failing_reads 1000 (VErr "EACCES"))
                (disk {[api_k := plain_entry 10 (JStr "old")]})))
  = Some (Fulfilled (VJson (JStr "d")))
  /\ log (core
       (play [Call (BaseCache.get api_cache "k" (VJson (JStr "d")) no_options);
              Turns 30]
             (init (failing_reads 1000 (VErr "EACCES"))
                   (disk {[api_k := plain_entry 10 (JStr "old")]}))))
     = [[VErr "EACCES"]].
Proof.
  pose proof (failed_read_is_logged_and_counts_as_a_miss api_cache "k"
                {[api_k := plain_entry 10 (JStr "old")]} 1000 (VErr "EACCES")
                (JStr "d") eq_refl) as H.
  cbv zeta in H. destruct H as [H0 [H1 _]]. split; [exact H0|exact H1].
Defined.

(** X19. A [getOrSet] whose read fails with an error other than [ENOENT]
    goes on as after a miss: the error is logged, the producer is entered,
    its value is written and the call resolves to it. *)
Theorem failed_read_does_not_stop_getOrSet
  (this : Cache) (key : string) (fs : gmap string json) (now : Z) (t : option Z)
  (e : Val) (v : json) (name : string) :
  Backend.is_ENOENT e = false ->
  let pk := BaseCache._key this key in
  let s :=
    play [Call (BaseCache.getOrSet this key (IFun (resolves name (VJson v)))
                  (ttl_options t));
          Turns 30]
         (init (failing_reads now e) (disk fs)) in
  outcome (promise_of 0) s = Some (Fulfilled (VJson v))
  /\ log (core s) = [[e]]
  /\ calls (core s) = [(name, key)]
  /\ files (store s) !! pk = Some (entry t now v)
  /\ (forall m, maps (store s) m !! pk = None)
  /\ quiescent s = true.
Proof.
  intros He pk s. subst s pk.
  split; [|split; [|split; [|split; [|split]]]].
  all: try (intros m; destruct m).
  all: through (BaseCache._key this key).
  all: generalize (fs !! BaseCache._key this key); intros o.
  all: change (Turns 30) with (Turns (2 + 28)); cbn [play act]; rewrite run_add.
  all: assert (Hstep :
    run 2 (call (BaseCache.getOrSet this key (IFun (resolves name (VJson v)))
                   (ttl_options t))
             (init (failing_reads now e) (slots_init o)))
    = exec (if Backend.is_ENOENT e then Return VUndef else Throw e) (0, 4)%nat
        (on_core (set_micro (fun _ => []))
           (run 1 (call (BaseCache.getOrSet this key (IFun (resolves name (VJson v)))
                           (ttl_options t))
                     (init (failing_reads now e) (slots_init o))))))
    by (vm_compute; reflexivity).
  all: rewrite Hstep, He.
  all: destruct t as [t|]; destruct now as [|now|now]; vm_compute; reflexivity.
Qed.

Lemma failed_read_does_not_stop_getOrSet_witness :
  outcome (promise_of 0)
    (play [Call (BaseCache.getOrSet api_cache "k" (IFun (resolves "f" (VJson (JNum 7))))
                   (ttl_options None));
           Turns 30]
          (init (failing_reads 1000 (VErr "EACCES"))
                (disk {[api_k := plain_entry 10 (JStr "old")]})))
  = Some (Fulfilled (VJson (JNum 7))).
Proof.
  pose proof (failed_read_does_not_stop_getOrSet api_cache "k"
                {[api_k := plain_entry 10 (JStr "old")]} 1000 None (VErr "EACCES")
                (JNum 7) "f" eq_refl) as H.
  cbv zeta in H. destruct H as [H0 _]. exact H0.
Defined.

(** ** [fromJSON] and [process] on read *)

(** X20. For a stored entry without TTL, [get] with the options [fromJSON]
    and [process] resolves to [process(fromJSON(v))], [v] being the stored
    value: [fromJSON] is applied first, [process] to its result. The file
    stays as it is. On a miss neither is called and [get] resolves to the
    default as it is. *)
Theorem get_applies_fromJSON_then_process
  (this : Cache) (key : string) (fs : gmap string json) (now c : Z)
  (f g : Val -> Result) (v a b d : json) :
  let pk := BaseCache._key this key in
  let s :=
    play [Call (BaseCache.get this key (VJson d) (reading_options f g)); Turns 30]
         (init (calm now) (disk fs)) in
  (fs !! pk = Some (plain_entry c v) ->
   f (VJson v) = Ok (VJson a) -> g (VJson a) = Ok (VJson b) ->
   outcome (promise_of 0) s = Some (Fulfilled (VJson b))
   /\ files (store s) !! pk = Some (plain_entry c v)
   /\ maps (store s) getting !! pk = None
   /\ quiescent s = true)
  /\ (fs !! pk = None ->
      outcome (promise_of 0) s = Some (Fulfilled (VJson d))
      /\ maps (store s) getting !! pk = None
      /\ quiescent s = true).
Proof.
  intros pk s. subst s pk. split.
  - intros Hfs Hf Hg.
    through (BaseCache._key this key). rewrite Hfs.
    cbn [play act].
    set (X := call (BaseCache.get this key (VJson d) (reading_options f g))
                (init (calm now) (slots_init (Some (plain_entry c v))))).
    assert (H1 :
      run 4 X
      = exec (match f (VJson v) with
              | Ok x => await x (fun val => BaseCache.await_process (Some g) val
                                             (fun val => Return val))
              | Raise e => Throw e
              end) (0, 5)%nat
          (on_core (set_micro (fun q => List.tl q)) (run 3 X)))
      by (vm_compute; reflexivity).
    change 30%nat with (4 + 26)%nat. rewrite run_add, H1, Hf. clear H1.
    set (Y := exec (await (VJson a)
                      (fun val => BaseCache.await_process (Some g) val
                                    (fun val => Return val)))
                (0, 5)%nat (on_core (set_micro (fun q => List.tl q)) (run 3 X))).
    assert (H2 :
      run 1 Y
      = exec (match g (VJson a) with
              | Ok x => await x (fun val => Return val)
              | Raise e => Throw e
              end) (0, 5)%nat
          (on_core (set_micro (fun q => List.tl q)) (run 0 Y)))
      by (vm_compute; reflexivity).
    change 26%nat with (1 + 25)%nat. rewrite run_add, H2, Hg. clear H2.
    vm_compute. repeat split.
  - intros Hfs. through (BaseCache._key this key). rewrite Hfs.
    vm_compute. repeat split.
Qed.

Lemma get_applies_fromJSON_then_process_witness :
  outcome (promise_of 0)
    (play [Call (BaseCache.get api_cache "k" (VJson (JStr "d"))
                   (reading_options increment increment));
           Turns 30]
          (init (calm 1000) (disk {[api_k := plain_entry 10 (JNum 5)]})))
  = Some (Fulfilled (VJson (JNum 7))).
Proof.
  pose proof (get_applies_fromJSON_then_process api_cache "k"
                {[api_k := plain_entry 10 (JNum 5)]} 1000 10 increment increment
                (JNum 5) (JNum 6) (JNum 7) (JStr "d")) as H.
  cbv zeta in H. destruct H as [H _].
  destruct (H (lookup_singleton_eq _ _) eq_refl eq_refl) as [H' _]. exact H'.
Defined.



(** ** A write that fails *)

(** X22. When the write to the backend fails during a [getOrSet] for a key
    without entry, the caller still gets the value: the producer is entered
    once, the call resolves to its value, the error is logged by [_set] and
    nothing is stored; the in-flight maps are empty at the end. *)
Theorem failed_write_does_not_stop_getOrSet
  (this : Cache) (key : string) (fs : gmap string json) (now : Z) (t : option Z)
  (e : Val) (v : json) (name : string) :
  fs !! BaseCache._key this key = None ->
  let pk := BaseCache._key this key in
  let s :=
    play [Call (BaseCache.getOrSet this key (IFun (resolves name (VJson v)))
                  (ttl_options t));
          Turns 30]
         (init (failing_writes now e) (disk fs)) in
  outcome (promise_of 0) s = Some (Fulfilled (VJson v))
  /\ calls (core s) = [(name, key)]
  /\ log (core s) = [[e]]
  /\ files (store s) !! pk = None
  /\ (forall m, maps (store s) m !! pk = None)
  /\ quiescent s = true.
Proof.
  intros Hfs pk s. subst s pk.
  split; [|split; [|split; [|split; [|split]]]].
  all: try (intros m; destruct m).
  all: through (BaseCache._key this key); rewrite Hfs.
  all: destruct t as [t|]; destruct now as [|now|now]; vm_compute; reflexivity.
Qed.

Lemma failed_write_does_not_stop_getOrSet_witness :
  outcome (promise_of 0)
    (play [Call (BaseCache.getOrSet api_cache "k" (IFun (resolves "f" (VJson (JNum 7))))
                   (ttl_options None));
           Turns 30]
          (init (failing_writes 1000 (VErr "ENOSPC")) (disk ∅)))
  = Some (Fulfilled (VJson (JNum 7))).
Proof.
  pose proof (failed_write_does_not_stop_getOrSet api_cache "k" ∅ 1000 None
                (VErr "ENOSPC") (JNum 7) "f" (lookup_empty _)) as H.
  cbv zeta in H. destruct H as [H' _]. exact H'.
Defined.

(** * Further properties of the path encoders *)

Section PathProperties.

Variable sha1_base64url : string -> string.

Lemma string_forall_substring p s : forall n m,
  string_forall p s = true -> string_forall p (String.substring n m s) = true.
Proof.
  induction s as [|a s IH]; intros n m Hs.
  - destruct n, m; reflexivity.
  - simpl in Hs. apply andb_true_iff in Hs as [Ha Hs].
    destruct n as [|n]; simpl.
    + destruct m as [|m]; [reflexivity|]. simpl. rewrite Ha. apply (IH 0%nat m Hs).
    + apply (IH n m Hs).
Qed.

Lemma length_substring s : forall n m, (String.length (String.substring n m s) <= m)%nat.
Proof.
  induction s as [|a s IH]; intros n m.
  - destruct n, m; simpl; lia.
  - destruct n as [|n]; simpl.
    + destruct m as [|m]; simpl; [lia|]. specialize (IH 0%nat m). lia.
    + apply IH.
Qed.

Lemma string_forall_strip p s :
  string_forall p s = true -> string_forall p (strip_dash_underscore s) = true.
Proof.
  induction s as [|a s IH]; intros Hs; [reflexivity|].
  simpl in Hs. apply andb_true_iff in Hs as [Ha Hs]. simpl.
  destruct (Ascii.eqb a "_" || Ascii.eqb a "-"); [apply IH, Hs|].
  simpl. rewrite Ha. apply IH, Hs.
Qed.

Lemma strip_has_no_dash_underscore s :
  string_forall (fun a => negb (Ascii.eqb a "_" || Ascii.eqb a "-"))
    (strip_dash_underscore s) = true.
Proof.
  induction s as [|a s IH]; [reflexivity|]. simpl.
  destruct (Ascii.eqb a "_" || Ascii.eqb a "-") eqn:E; [exact IH|].
  simpl. rewrite E. exact IH.
Qed.

(** X23. The name [hash] gives to the last segment of a key has at most ten
    code units, none of them an underscore or a dash, and every one of them
    occurs in the digest: whatever holds of all code units of the digest (no
    slash, no dot) holds of the name. *)
Theorem hash_is_short_and_made_of_digest_characters (str : string) (p : ascii -> bool) :
  (String.length (hash sha1_base64url str) <= 10)%nat
  /\ string_forall (fun a => negb (Ascii.eqb a "_" || Ascii.eqb a "-"))
       (hash sha1_base64url str) = true
  /\ (string_forall p (sha1_base64url str) = true ->
      string_forall p (hash sha1_base64url str) = true).
Proof.
  unfold hash. split; [apply length_substring|split].
  - apply string_forall_substring, strip_has_no_dash_underscore.
  - intros Hp. apply string_forall_substring, string_forall_strip, Hp.
Qed.

End PathProperties.

(** ** The older encoder *)

Section OlderEncoder.

Variable sha1_base64url : string -> string.

Lemma safe_is_not_slash a : is_unsafe a = false -> Ascii.eqb a slash = false.
Proof.
  intros Ha. destruct (Ascii.eqb_spec a slash) as [->|_]; [|reflexivity].
  vm_compute in Ha. discriminate Ha.
Qed.

Lemma replace_unsafe_chars s : forall b,
  string_forall path_char (replace_unsafe b s) = true.
Proof.
  induction s as [|a s IH]; intros b; [reflexivity|]. simpl.
  destruct (is_unsafe a) eqn:Ea.
  - destruct b; [apply IH|]. simpl. rewrite IH. reflexivity.
  - simpl. unfold path_char at 1. rewrite Ea, orb_true_r. apply IH.
Qed.

(** Inside a run of unsafe code units no slash is produced. *)
Lemma replace_unsafe_in_run s :
  match replace_unsafe true s with
  | String a _ => Ascii.eqb a slash = false
  | EmptyString => True
  end.
Proof.
  induction s as [|a s IH]; [exact I|]. simpl.
  destruct (is_unsafe a) eqn:Ea; [exact IH|]. apply safe_is_not_slash, Ea.
Qed.

Lemma no_double_slash_cons a b s :
  no_double_slash (String a (String b s))
  = negb (Ascii.eqb a slash && Ascii.eqb b slash) && no_double_slash (String b s).
Proof. reflexivity. Qed.

Lemma replace_unsafe_slashes s : forall b, no_double_slash (replace_unsafe b s) = true.
Proof.
  induction s as [|a s IH]; intros b; [reflexivity|]. simpl.
  destruct (is_unsafe a) eqn:Ea.
  - destruct b; [apply IH|].
    pose proof (replace_unsafe_in_run s) as Hrun. specialize (IH true).
    destruct (replace_unsafe true s) as [|c r]; [reflexivity|].
    rewrite no_double_slash_cons, Hrun, andb_false_r, IH. reflexivity.
  - specialize (IH false).
    destruct (replace_unsafe false s) as [|c r]; [reflexivity|].
    rewrite no_double_slash_cons, (safe_is_not_slash a Ea), IH. reflexivity.
Qed.

Lemma strip_final_slash_chars p s :
  string_forall p s = true -> string_forall p (strip_final_slash s) = true.
Proof.
  induction s as [|a s IH]; intros Hs; [reflexivity|].
  simpl in Hs. apply andb_true_iff in Hs as [Ha Hs].
  destruct s as [|b s].
  - simpl. destruct (Ascii.eqb a slash); simpl; [reflexivity|].
    rewrite Ha. reflexivity.
  - change (string_forall p (String a (strip_final_slash (String b s))) = true).
    simpl string_forall at 1. rewrite Ha. apply IH, Hs.
Qed.

Lemma strip_final_slash_end s :
  no_double_slash s = true -> last_char (strip_final_slash s) <> Some slash.
Proof.
  induction s as [|a s IH]; intros Hs; [discriminate|].
  destruct s as [|b s].
  - simpl. destruct (Ascii.eqb_spec a slash) as [->|Hne]; [discriminate|].
    simpl. intros [= E]. contradiction.
  - rewrite no_double_slash_cons in Hs. apply andb_true_iff in Hs as [Hab Hs].
    specialize (IH Hs).
    change (strip_final_slash (String a (String b s)))
      with (String a (strip_final_slash (String b s))).
    destruct (strip_final_slash (String b s)) as [|c r] eqn:E.
    + (* the rest was a single slash *)
      simpl. intros [= ->]. rewrite Ascii.eqb_refl in Hab. simpl in Hab.
      destruct s as [|c s]; simpl in E.
      * destruct (Ascii.eqb b slash) eqn:Eb; [|discriminate E].
        discriminate Hab.
      * discriminate E.
    + exact IH.
Qed.

Lemma strip_final_slash_slashes s :
  no_double_slash s = true -> no_double_slash (strip_final_slash s) = true.
Proof.
  induction s as [|a s IH]; intros Hs; [reflexivity|].
  destruct s as [|b s].
  - simpl. destruct (Ascii.eqb a slash); reflexivity.
  - rewrite no_double_slash_cons in Hs. apply andb_true_iff in Hs as [Hab Hs].
    specialize (IH Hs).
    change (strip_final_slash (String a (String b s)))
      with (String a (strip_final_slash (String b s))).
    destruct s as [|c s].
    + cbn [strip_final_slash]. destruct (Ascii.eqb b slash) eqn:Eb; [reflexivity|].
      rewrite no_double_slash_cons, Eb, andb_false_r. reflexivity.
    + change (strip_final_slash (String b (String c s)))
        with (String b (strip_final_slash (String c s))) in *.
      rewrite no_double_slash_cons, Hab. exact IH.
Qed.

(** X24. The older encoder on a key of at most 2048 code units whose
    sanitised form has at most 200: the path is the cache directory, a slash
    and the sanitised key, in which every code unit is a slash or a code unit
    outside the unsafe class, no two slashes follow each other and the last
    code unit is not a slash. *)
Theorem older_encoder_sanitises (cacheDir key : string) :
  let clean := strip_final_slash (replace_unsafe false key) in
  (String.length key <= 2048)%nat -> (String.length clean <= 200)%nat ->
  legacy_keyToPath sha1_base64url cacheDir key = (cacheDir ++ "/" ++ clean)%string
  /\ string_forall path_char clean = true
  /\ no_double_slash clean = true
  /\ last_char clean <> Some slash.
Proof.
  intros clean Hkey Hclean. subst clean. split; [|split; [|split]].
  - unfold legacy_keyToPath, legacy_encode.
    destruct (Nat.ltb_spec 2048 (String.length key)); [lia|].
    destruct (Nat.ltb_spec 200
                (String.length (strip_final_slash (replace_unsafe false key))));
      [lia|reflexivity].
  - apply strip_final_slash_chars, replace_unsafe_chars.
  - apply strip_final_slash_slashes, replace_unsafe_slashes.
  - apply strip_final_slash_end, replace_unsafe_slashes.
Qed.

Lemma replace_unsafe_safe s :
  string_forall (fun a => negb (is_unsafe a)) s = true -> replace_unsafe false s = s.
Proof.
  induction s as [|a s IH]; intros Hs; [reflexivity|].
  simpl in Hs. apply andb_true_iff in Hs as [Ha Hs]. apply negb_true_iff in Ha.
  simpl. rewrite Ha, (IH Hs). reflexivity.
Qed.

Lemma strip_final_slash_safe s :
  string_forall (fun a => negb (is_unsafe a)) s = true -> strip_final_slash s = s.
Proof.
  induction s as [|a s IH]; intros Hs; [reflexivity|].
  simpl in Hs. apply andb_true_iff in Hs as [Ha Hs]. apply negb_true_iff in Ha.
  destruct s as [|b s].
  - simpl. rewrite (safe_is_not_slash a Ha). reflexivity.
  - change (String a (strip_final_slash (String b s)) = String a (String b s)).
    rewrite (IH Hs). reflexivity.
Qed.

(** X25. The older encoder leaves a key of at most 200 code units, none of
    them in the unsafe class, as it is: the path is the cache directory, a
    slash and the key. *)
Theorem older_encoder_keeps_a_safe_key (cacheDir key : string) :
  (String.length key <= 200)%nat ->
  string_forall (fun a => negb (is_unsafe a)) key = true ->
  legacy_keyToPath sha1_base64url cacheDir key = (cacheDir ++ "/" ++ key)%string.
Proof.
  intros Hlen Hsafe. unfold legacy_keyToPath, legacy_encode.
  destruct (Nat.ltb_spec 2048 (String.length key)); [lia|].
  rewrite (replace_unsafe_safe key Hsafe), (strip_final_slash_safe key Hsafe).
  destruct (Nat.ltb_spec 200 (String.length key)); [lia|reflexivity].
Qed.

End OlderEncoder.

Lemma older_encoder_sanitises_witness :
  legacy_keyToPath toy_digest "/cache" "user:42/profile?"
  = ("/cache" ++ "/" ++ strip_final_slash (replace_unsafe false "user:42/profile?"))%string
  /\ string_forall path_char (strip_final_slash (replace_unsafe false "user:42/profile?"))
     = true
  /\ no_double_slash (strip_final_slash (replace_unsafe false "user:42/profile?")) = true
  /\ last_char (strip_final_slash (replace_unsafe false "user:42/profile?"))
     <> Some slash.
Proof.
  apply (older_encoder_sanitises toy_digest "/cache" "user:42/profile?").
  - vm_compute. lia.
  - vm_compute. lia.
Defined.

Lemma older_encoder_keeps_a_safe_key_witness :
  legacy_keyToPath toy_digest "/cache" "user-42.json" = ("/cache" ++ "/" ++ "user-42.json")%string.
Proof.
  apply (older_encoder_keeps_a_safe_key toy_digest "/cache" "user-42.json").
  - vm_compute. lia.
  - vm_compute. reflexivity.
Defined.

(** ** Where the entries are, and what [clear] removes *)

Lemma string_append_assoc (s1 s2 s3 : string) :
  ((s1 ++ s2) ++ s3 = s1 ++ (s2 ++ s3))%string.
Proof.
  induction s1 as [|a s1 IH]; [reflexivity|].
  change (String a ((s1 ++ s2) ++ s3) = String a (s1 ++ (s2 ++ s3)))%string.
  f_equal. exact IH.
Qed.

Lemma string_append_inj (s a b : string) : (s ++ a = s ++ b)%string -> a = b.
Proof.
  induction s as [|c s IH]; intros E; [exact E|].
  change (String c (s ++ a) = String c (s ++ b))%string in E.
  injection E as E. apply IH, E.
Qed.

(** X26. Within one cache, different keys have different prefixed keys: they
    never share an entry of an in-flight map. *)
Theorem prefixed_key_is_injective (this : Cache) (k1 k2 : string) :
  BaseCache._key this k1 = BaseCache._key this k2 -> k1 = k2.
Proof.
  unfold BaseCache._key. intros E.
  apply string_append_inj in E. apply string_append_inj in E. exact E.
Qed.

Lemma prefixed_key_is_injective_witness : "k" = "k".
Proof.
  apply (prefixed_key_is_injective api_cache "k" "k"). reflexivity.
Defined.

Section ClearTarget.

Variable sha1_base64url : string -> string.
Variable CACHE_DIR : string.

Lemma split_aux_plain s :
  forall cur,
    no_vtab s = true ->
    split_aux KEY_SEPARATOR 0 cur s
    = [string_of_list_ascii (rev cur ++ list_ascii_of_string s)].
Proof.
  induction s as [|a s IH]; intros cur Hs.
  - simpl. rewrite app_nil_r. reflexivity.
  - simpl in Hs. apply andb_true_iff in Hs as [Ha Hs]. apply negb_true_iff in Ha.
    cbn [split_aux]. rewrite (prefix_separator_other _ _ Ha).
    rewrite (IH (a :: cur) Hs). simpl. rewrite <- app_assoc. reflexivity.
Qed.

Lemma split_plain s : no_vtab s = true -> split KEY_SEPARATOR s = [s].
Proof.
  intros Hs. unfold split. rewrite (split_aux_plain s [] Hs). simpl.
  rewrite string_of_list_ascii_of_string. reflexivity.
Qed.

Lemma split_segment seg rest :
  no_vtab seg = true ->
  split KEY_SEPARATOR (seg ++ KEY_SEPARATOR ++ rest) = seg :: split KEY_SEPARATOR rest.
Proof.
  intros Hseg. unfold split at 1. rewrite (split_aux_segment rest seg [] Hseg).
  simpl. rewrite string_of_list_ascii_of_string. reflexivity.
Qed.

(** X27. For a cache of the file backend whose prefix has no vertical tab,
    the entry of a key is the file [CACHE_DIR/HC/a/<prefix>/<...>.fc], the
    last segment of the key being hashed, whereas [clear] hands [fs.rm] the
    directory [CACHE_DIR/HC/a/<hash of the prefix>]: unless the prefix is its
    own hash, that is not the directory that holds the entries. *)
Theorem clear_removes_another_directory (this : Cache) (key : string) :
  KEY_SEP this = KEY_SEPARATOR -> no_vtab (prefix this) = true ->
  entry_file sha1_base64url CACHE_DIR this key
  = (CACHE_DIR ++ "/HC/a/" ++ prefix this ++ "/"
     ++ String.concat "/" (map_last (hash sha1_base64url) (split KEY_SEPARATOR key))
     ++ ".fc")%string
  /\ clear_target sha1_base64url CACHE_DIR this
     = (CACHE_DIR ++ "/HC/a/" ++ hash sha1_base64url (prefix this))%string
  /\ (hash sha1_base64url (prefix this) <> prefix this ->
      clear_target sha1_base64url CACHE_DIR this
      <> (CACHE_DIR ++ "/HC/a/" ++ prefix this)%string).
Proof.
  intros Hsep Hprefix.
  assert (Hclear : clear_target sha1_base64url CACHE_DIR this
                   = (CACHE_DIR ++ "/HC/a/" ++ hash sha1_base64url (prefix this))%string).
  { unfold clear_target, keyToPath, BaseCache.keyPath, BaseCache.CACHE_ID,
      BaseCache.GLOBAL_PREFIX. rewrite Hsep. cbn [String.concat].
    rewrite (split_segment "HC" _ eq_refl), (split_segment "a" _ eq_refl),
      (split_plain _ Hprefix).
    reflexivity. }
  split; [|split].
  - unfold entry_file, keyToFile, keyToPath, BaseCache._key, BaseCache.keyPath,
      BaseCache.CACHE_ID, BaseCache.GLOBAL_PREFIX. rewrite Hsep. cbn [String.concat].
    rewrite !string_append_assoc.
    rewrite (split_segment "HC" _ eq_refl), (split_segment "a" _ eq_refl),
      (split_segment (prefix this) _ Hprefix).
    rewrite !map_last_cons by (try discriminate; apply split_aux_not_nil).
    rewrite !concat_cons
      by (try discriminate; try (apply map_last_not_nil); apply split_aux_not_nil).
    rewrite !string_append_assoc. reflexivity.
  - exact Hclear.
  - intros Hne. rewrite Hclear. intros E.
    apply string_append_inj in E. apply (string_append_inj "/HC/a/") in E.
    contradiction.
Qed.

End ClearTarget.

Lemma clear_removes_another_directory_witness :
  clear_target toy_digest "/cache" api_cache = "/cache/HC/a/9aQxZ7pLm2"
  /\ entry_file toy_digest "/cache" api_cache "k" = "/cache/HC/a/api/9aQxZ7pLm2.fc".
Proof.
  destruct (clear_removes_another_directory toy_digest "/cache" api_cache "k"
              eq_refl eq_refl) as [H1 [H2 _]].
  split; [rewrite H2|rewrite H1]; vm_compute; reflexivity.
Defined.

(** ** The older encoder on a long last part *)

Section OlderEncoderLastPart.

Variable sha1_base64url : string -> string.

Lemma match_last_part_none s :
  string_forall (fun a => negb (Ascii.eqb a slash)) s = true ->
  match_last_part s = None.
Proof.
  induction s as [|a s IH]; intros Hs; [reflexivity|].
  simpl in Hs. apply andb_true_iff in Hs as [Ha Hs]. apply negb_true_iff in Ha.
  cbn [match_last_part]. rewrite (IH Hs), Ha. reflexivity.
Qed.

Lemma match_last_part_found before tail :
  string_forall (fun a => negb (Ascii.eqb a slash)) tail = true ->
  match_last_part (before ++ String slash tail)
  = Some (before, String slash tail).
Proof.
  intros Htail. induction before as [|a before IH].
  - change ("" ++ String slash tail)%string with (String slash tail).
    cbn [match_last_part]. rewrite (match_last_part_none tail Htail).
    rewrite Ascii.eqb_refl. reflexivity.
  - change (String a before ++ String slash tail)%string
      with (String a (before ++ String slash tail)).
    cbn [match_last_part]. rewrite IH. reflexivity.
Qed.

(** X28. The older encoder on a key of at most 2048 code units whose
    sanitised form ends in a segment of 200 code units or more: the segment,
    with the slash before it, is replaced by a slash and its digest. A
    shorter last segment is kept, however long the whole key is. *)
Theorem older_encoder_hashes_a_long_last_part (cacheDir key before tail : string) :
  (String.length key <= 2048)%nat ->
  strip_final_slash (replace_unsafe false key) = (before ++ String slash tail)%string ->
  string_forall (fun a => negb (Ascii.eqb a slash)) tail = true ->
  ((200 <= String.length tail)%nat ->
   legacy_keyToPath sha1_base64url cacheDir key
   = (cacheDir ++ "/" ++ before ++ "/" ++ sha1_base64url (String slash tail))%string)
  /\ ((String.length tail < 200)%nat ->
      legacy_keyToPath sha1_base64url cacheDir key
      = (cacheDir ++ "/" ++ before ++ String slash tail)%string).
Proof.
  intros Hkey Hclean Htail.
  unfold legacy_keyToPath, legacy_encode.
  destruct (Nat.ltb_spec 2048 (String.length key)); [lia|].
  rewrite Hclean, (match_last_part_found before tail Htail).
  rewrite string_length_append. cbn [String.length].
  split; intros Hlen.
  - destruct (Nat.ltb_spec 200 (String.length before + S (String.length tail)));
      [|lia].
    destruct (Nat.ltb_spec 200 (S (String.length tail))); [reflexivity|lia].
  - destruct (Nat.ltb_spec 200 (String.length before + S (String.length tail)));
      [|reflexivity].
    destruct (Nat.ltb_spec 200 (S (String.length tail))); [lia|reflexivity].
Qed.

End OlderEncoderLastPart.

Lemma older_encoder_hashes_a_long_last_part_witness :
  legacy_keyToPath toy_digest "/cache" ("a/" ++ repeat_char "b" 250)
  = ("/cache" ++ "/" ++ "a" ++ "/"
     ++ toy_digest (String slash (repeat_char "b" 250)))%string.
Proof.
  destruct (older_encoder_hashes_a_long_last_part toy_digest "/cache"
              ("a/" ++ repeat_char "b" 250) "a" (repeat_char "b" 250))
    as [H _].
  - vm_compute. lia.
  - vm_compute. reflexivity.
  - vm_compute. reflexivity.
  - apply H. vm_compute. lia.
Defined.
